(** * jobs_scraper: a shallow embedding of [jobs_scraper.py]

    The development follows the layout of the script: text utilities,
    the experience parser with the regular expressions it searches for,
    the three filter predicates, the two scrapers, the aggregation with
    its de-duplication, the filter, the HTML formatter and the mail
    notifier.  Definitions come first, the properties after them. *)

From Stdlib Require Import String Ascii DecimalString ZArith NArith Bool Lia List.
Import ListNotations.

(** ** Python text

    A Python [str] is a sequence of Unicode code points.  String literals
    of the script are ASCII (with two exceptions, the en dash of the first
    pattern and the em dash of the formatter) and are written through
    [cps]. *)

Definition cp := N.
Definition pystr := list cp.

Definition cps (s : string) : pystr := map N_of_ascii (list_ascii_of_string s).

(** The double quote and the two dashes of the script, U+2013 and U+2014. *)
Definition dquote : pystr := [34%N].
Definition en_dash : cp := 8211%N.
Definition em_dash : cp := 8212%N.

Definition cp_eqb (a b : cp) : bool := N.eqb a b.

Fixpoint str_eqb (a b : pystr) : bool :=
  match a, b with
  | [], [] => true
  | x :: a', y :: b' => cp_eqb x y && str_eqb a' b'
  | _, _ => false
  end.

(** The part of the Unicode character database that the script reaches
    through [str.lower], [\d] and [int] and that lies outside ASCII.  It
    belongs to the Python runtime, not to the script, and it differs from
    one Unicode version to the next, so it is a parameter of the model:
    [ucd_lower s i] is the lower-case expansion of the non-ASCII character
    at index [i] of [s] (the index matters for the final sigma),
    [ucd_decimal c] the value of a non-ASCII decimal digit. *)
Record ucd := {
  ucd_lower : pystr -> nat -> pystr;
  ucd_decimal : cp -> option Z
}.

(** [str.isspace] of one character, which is also the class [\s] of [re]
    on [str] patterns. *)
Definition is_space (c : cp) : bool :=
  ((9 <=? c) && (c <=? 13) || (28 <=? c) && (c <=? 32)
   || (c =? 133) || (c =? 160) || (c =? 5760)
   || (8192 <=? c) && (c <=? 8202)
   || (c =? 8232) || (c =? 8233) || (c =? 8239) || (c =? 8287)
   || (c =? 12288))%N.

Definition is_ascii (c : cp) : bool := (c <? 128)%N.

Definition ascii_lower (c : cp) : cp :=
  if ((65 <=? c) && (c <=? 90))%N then (c + 32)%N else c.

Section Text.

Variable U : ucd.

Fixpoint lower_from (s : pystr) (i : nat) (rest : pystr) : pystr :=
  match rest with
  | [] => []
  | c :: rest' =>
      (if is_ascii c then [ascii_lower c] else ucd_lower U s i)
        ++ lower_from s (S i) rest'
  end.

(** [s.lower()] *)
Definition lower (s : pystr) : pystr := lower_from s 0 s.

(** The value of a decimal digit (category Nd), [None] for other
    characters. *)
Definition decimal_value (c : cp) : option Z :=
  if is_ascii c
  then if ((48 <=? c) && (c <=? 57))%N then Some (Z.of_N c - 48)%Z else None
  else ucd_decimal U c.

(** The class [\d]. *)
Definition is_digit (c : cp) : bool :=
  match decimal_value c with Some _ => true | None => false end.

(** [int(s)] on a string of decimal digits, the only strings the script
    converts (a group matched by [\d{1,2}]). *)
Definition int_of_digits (s : pystr) : Z :=
  fold_left
    (fun acc c => (10 * acc + match decimal_value c with Some d => d | None => 0 end)%Z)
    s 0%Z.

End Text.

(** [text.split()]: the maximal runs of characters that are not white
    space; [word] is the run being read. *)
Fixpoint split_from (s : pystr) (word : pystr) : list pystr :=
  match s with
  | [] => match word with [] => [] | _ => [word] end
  | c :: s' =>
      if is_space c
      then match word with
           | [] => split_from s' []
           | _ => word :: split_from s' []
           end
      else split_from s' (word ++ [c])
  end.

Definition split (s : pystr) : list pystr := split_from s [].

(** [sep.join(items)] on strings. *)
Fixpoint join (sep : pystr) (items : list pystr) : pystr :=
  match items with
  | [] => []
  | [x] => x
  | x :: rest => x ++ sep ++ join sep rest
  end.

(** [s.startswith(prefix)] *)
Fixpoint startswith (prefix s : pystr) : bool :=
  match prefix, s with
  | [], _ => true
  | p :: prefix', c :: s' => cp_eqb p c && startswith prefix' s'
  | _ :: _, [] => false
  end.

(** [needle in hay] *)
Fixpoint str_in (needle hay : pystr) : bool :=
  startswith needle hay
  || match hay with
     | [] => false
     | _ :: hay' => str_in needle hay'
     end.

(** [any(f(x) for x in xs)] *)
Definition any {A} (f : A -> bool) (xs : list A) : bool := existsb f xs.

Definition normalize_text (text : pystr) : pystr :=
  match text with
  | [] => []
  | _ => join (cps " ") (split text)
  end.

(** ** Regular expressions

    The fragment of [re] that the four patterns of
    [parse_experience_text] use: a single character from a class, a
    literal, sequencing, the greedy repetition of a character class
    between two bounds ([\s*], [\d{1,2}], [s?]) and numbered groups. *)

Inductive regex :=
| RChar (p : cp -> bool)
| RLit (w : pystr)
| RSeq (r1 r2 : regex)
| RRep (p : cp -> bool) (lo : nat) (hi : option nat)
| RGroup (n : nat) (r : regex).

Declare Scope regex_scope.
Delimit Scope regex_scope with regex.
Bind Scope regex_scope with regex.
Infix "+++" := RSeq (at level 60, right associativity) : regex_scope.

(** The groups set so far, most recent first. *)
Definition captures := list (nat * pystr).

Fixpoint group (caps : captures) (n : nat) : pystr :=
  match caps with
  | [] => []
  | (m, w) :: caps' => if Nat.eqb m n then w else group caps' n
  end.

Definition may_take (hi : option nat) : bool :=
  match hi with
  | Some 0 => false
  | _ => true
  end.

(** A backtracking matcher in continuation-passing style, alternatives
    tried in the order of [re]: a greedy repetition first takes as many
    characters as it can and gives them back one at a time. *)
Fixpoint rep {A} (p : cp -> bool) (lo : nat) (hi : option nat)
                 (s : pystr) (k : pystr -> option A) {struct s} : option A :=
  let stop := match lo with 0 => k s | S _ => None end in
  match s with
  | c :: s' =>
      if p c && may_take hi
      then match rep p (pred lo) (option_map pred hi) s' k with
           | Some a => Some a
           | None => stop
           end
      else stop
  | [] => stop
  end.

Fixpoint strip_prefix (w s : pystr) : option pystr :=
  match w, s with
  | [], _ => Some s
  | x :: w', c :: s' => if cp_eqb x c then strip_prefix w' s' else None
  | _ :: _, [] => None
  end.

Fixpoint exec {A} (r : regex) (s : pystr) (caps : captures)
                  (k : pystr -> captures -> option A) {struct r} : option A :=
  match r with
  | RChar p =>
      match s with
      | c :: s' => if p c then k s' caps else None
      | [] => None
      end
  | RLit w =>
      match strip_prefix w s with
      | Some s' => k s' caps
      | None => None
      end
  | RSeq r1 r2 => exec r1 s caps (fun s1 caps1 => exec r2 s1 caps1 k)
  | RRep p lo hi => rep p lo hi s (fun s' => k s' caps)
  | RGroup n r' =>
      exec r' s caps
        (fun s' caps' =>
           k s' ((n, firstn (length s - length s') s) :: caps'))
  end.

(** A match of the pattern anchored at the start of [s]. *)
Definition match_here (r : regex) (s : pystr) : option captures :=
  exec r s [] (fun _ caps => Some caps).

(** [re.search(r, s)]: the match at the leftmost position that has one. *)
Fixpoint search (r : regex) (s : pystr) : option captures :=
  match match_here r s with
  | Some m => Some m
  | None =>
      match s with
      | [] => None
      | _ :: s' => search r s'
      end
  end.

(** What it means for a pattern to match exactly a word, and which
    groups the match sets: the reference the matcher is checked
    against. *)
Definition within (hi : option nat) (n : nat) : Prop :=
  match hi with
  | Some h => n <= h
  | None => True
  end.

Inductive matches : regex -> pystr -> captures -> captures -> Prop :=
| M_char p c caps :
    p c = true -> matches (RChar p) [c] caps caps
| M_lit w caps :
    matches (RLit w) w caps caps
| M_seq r1 r2 w1 w2 c0 c1 c2 :
    matches r1 w1 c0 c1 -> matches r2 w2 c1 c2 ->
    matches (RSeq r1 r2) (w1 ++ w2) c0 c2
| M_rep p lo hi w caps :
    forallb p w = true -> lo <= length w -> within hi (length w) ->
    matches (RRep p lo hi) w caps caps
| M_group n r w c0 c1 :
    matches r w c0 c1 -> matches (RGroup n r) w c0 ((n, w) :: c1).

(** The pattern occurs in [t], the occurrence setting the groups [caps]. *)
Definition occurs (r : regex) (t : pystr) (caps : captures) : Prop :=
  exists pre w rest, t = pre ++ w ++ rest /\ matches r w [] caps.

(** ** Configuration *)

Definition KEYWORDS : list pystr :=
  [ cps "DevOps Engineer";
    cps "Cloud Engineer";
    cps "Site Reliability Engineer";
    cps "Platform Engineer";
    cps "Infrastructure Engineer";
    cps "AWS Engineer";
    cps "Azure DevOps Engineer";
    cps "Kubernetes Engineer" ].

Definition MIN_YEARS : Z := 2.
Definition MAX_YEARS : Z := 6.

(** ** Utilities *)

Definition spaces : regex := RRep is_space 0 None.

(** [[-–]]: the hyphen or the en dash U+2013 *)
Definition is_dash (c : cp) : bool := cp_eqb c 45%N || cp_eqb c en_dash.

(** [years?] *)
Definition years : regex :=
  (RLit (cps "year") +++ RRep (cp_eqb 115%N) 0 (Some 1))%regex.

Section Experience.

Variable U : ucd.

(** [\d{1,2}] *)
Definition digits12 : regex := RRep (is_digit U) 1 (Some 2).

(** [(\d{1,2})\s*[-–]\s*(\d{1,2})\s*years?] *)
Definition pat_range : regex :=
  (RGroup 1 digits12 +++ spaces +++ RChar is_dash +++ spaces
   +++ RGroup 2 digits12 +++ spaces +++ years)%regex.

(** [(\d{1,2})\s*\+\s*years?] *)
Definition pat_plus : regex :=
  (RGroup 1 digits12 +++ spaces +++ RChar (cp_eqb 43%N) +++ spaces
   +++ years)%regex.

(** [minimum\s+of\s+(\d{1,2})\s*years?] *)
Definition pat_minimum : regex :=
  (RLit (cps "minimum") +++ RRep is_space 1 None +++ RLit (cps "of")
   +++ RRep is_space 1 None +++ RGroup 1 digits12 +++ spaces
   +++ years)%regex.

(** [(\d{1,2})\s*years?] *)
Definition pat_plain : regex :=
  (RGroup 1 digits12 +++ spaces +++ years)%regex.

(** [int(m.group(n))] *)
Definition int_group (m : captures) (n : nat) : Z :=
  int_of_digits U (group m n).

Definition parse_experience_text (text : pystr) : option Z * option Z :=
  match text with
  | [] => (None, None)
  | _ =>
      let text := lower U text in
      match search pat_range text with
      | Some m => (Some (int_group m 1), Some (int_group m 2))
      | None =>
      match search pat_plus text with
      | Some m => (Some (int_group m 1), None)
      | None =>
      match search pat_minimum text with
      | Some m => (Some (int_group m 1), None)
      | None =>
      match search pat_plain text with
      | Some m => let y := int_group m 1 in (Some y, Some y)
      | None => (None, None)
      end end end end
  end.

End Experience.

(** The chain of [if]s of [experience_matches], each [match] one test,
    the last line the final [return False]. *)
Definition experience_matches (min_y max_y : option Z) : bool :=
  match min_y, max_y with
  | None, None => true
  | _, _ =>
  match min_y, max_y with
  | Some lo, Some hi => negb ((hi <? MIN_YEARS)%Z || (lo >? MAX_YEARS)%Z)
  | _, _ =>
  match min_y with
  | Some lo => (lo <=? MAX_YEARS)%Z
  | None =>
  match max_y with
  | Some hi => (hi >=? MIN_YEARS)%Z
  | None => false
  end end end end.

(** The [return] statement that a call of [experience_matches] leaves
    through, found with the same chain of tests. *)
Inductive exit_point :=
| BothUnknown | BothKnown | LowerOnly | UpperOnly | FallThrough.

Definition experience_exit (min_y max_y : option Z) : exit_point :=
  match min_y, max_y with
  | None, None => BothUnknown
  | _, _ =>
  match min_y, max_y with
  | Some _, Some _ => BothKnown
  | _, _ =>
  match min_y with
  | Some _ => LowerOnly
  | None =>
  match max_y with
  | Some _ => UpperOnly
  | None => FallThrough
  end end end end.

(** ** Values, records and exceptions

    The fields of a job record hold a string or [None].  A record is a
    [dict] with string keys, kept as the list of its items. *)

Inductive value :=
| VNone
| VStr (s : pystr).

Definition job := list (string * value).

(** The exceptions the script can meet; all derive from [Exception].
    [LibraryError] stands for whatever [requests], [bs4], [email] or
    [smtplib] raise, with the text [str(e)] gives. *)
Inductive exn :=
| TypeError (msg : pystr)
| KeyError (key : string)
| AttributeError (msg : pystr)
| RuntimeError (msg : pystr)
| LibraryError (msg : pystr).

Inductive result (A : Type) :=
| Ok (a : A)
| Raise (e : exn).

Arguments Ok {A} a.
Arguments Raise {A} e.

Definition bind {A B} (c : result A) (k : A -> result B) : result B :=
  match c with
  | Ok a => k a
  | Raise e => Raise e
  end.

Notation "x <- c ;; k" := (bind c (fun x => k))
  (at level 61, c at next level, right associativity).

(** [str(e)] *)
Definition exn_str (e : exn) : pystr :=
  match e with
  | TypeError msg | AttributeError msg | RuntimeError msg | LibraryError msg => msg
  | KeyError key => cps "'" ++ cps key ++ cps "'"
  end.

(** [str(n)] for a count *)
Definition str_of_nat (n : nat) : pystr :=
  cps (NilZero.string_of_uint (Nat.to_uint n)).

(** [bool(v)] *)
Definition truthy (v : value) : bool :=
  match v with
  | VNone => false
  | VStr [] => false
  | VStr (_ :: _) => true
  end.

(** [a or b] *)
Definition py_or (a b : value) : value := if truthy a then a else b.

Definition value_eqb (a b : value) : bool :=
  match a, b with
  | VNone, VNone => true
  | VStr s, VStr t => str_eqb s t
  | _, _ => false
  end.

Fixpoint lookup (d : job) (key : string) : option value :=
  match d with
  | [] => None
  | (k, v) :: d' => if String.eqb k key then Some v else lookup d' key
  end.

(** [d.get(key, default)] *)
Definition dict_get (d : job) (key : string) (default : value) : value :=
  match lookup d key with
  | Some v => v
  | None => default
  end.

(** [d[key]] *)
Definition dict_item (d : job) (key : string) : result value :=
  match lookup d key with
  | Some v => Ok v
  | None => Raise (KeyError key)
  end.

(** [sep.join(items)] where an item may be [None]: the first item that is
    not a string raises. *)
Fixpoint strings_from (items : list value) (i : nat) : result (list pystr) :=
  match items with
  | [] => Ok []
  | VStr s :: rest => l <- strings_from rest (S i) ;; Ok (s :: l)
  | VNone :: _ =>
      Raise (TypeError (cps "sequence item " ++ str_of_nat i
                        ++ cps ": expected str instance, NoneType found"))
  end.

Definition join_values (sep : pystr) (items : list value) : result pystr :=
  l <- strings_from items 0 ;; Ok (join sep l).

(** ** The filter predicates *)

Section Predicates.

Variable U : ucd.

Definition location_matches (location_text : value) : bool :=
  if negb (truthy location_text) then true
  else
    match location_text with
    | VStr s =>
        let t := lower U s in
        any (fun key => str_in key t)
            [cps "remote"; cps "india"; cps "pan india"; cps "india remote"]
    | VNone => true
    end.

Definition text_contains_keywords (text : pystr) : bool :=
  let t := lower U text in
  if any (fun kw => str_in (lower U kw) t) KEYWORDS then true
  else any (fun word => str_in word t)
           [cps "devops"; cps "cloud"; cps "sre"; cps "site reliability"].

End Predicates.

(** ** Scrapers

    What the script sees of the network and of the HTML parser: the body
    of the response to a GET, and the anchors a parsed page has for a
    selector, each of the two either returned or replaced by the
    exception raised.  A parsed anchor is a piece of data: its [href]
    attribute if it has one, its text, and the text of its parent if it
    has one. *)

Record tag := {
  attr_href : option pystr;
  get_text : pystr;
  parent_text : option pystr
}.

Record internet := {
  requests_get : pystr -> result pystr;
  soup_select : pystr -> pystr -> result (list tag)
}.

(** The lines printed so far. *)
Definition stdout := list pystr.

(** [print(label, e)] *)
Definition print_error (label : pystr) (e : exn) (out : stdout) : stdout :=
  out ++ [label ++ cps " " ++ exn_str e].

Definition indeed_record (a : tag) : job :=
  let link := match attr_href a with Some h => h | None => [] end in
  let link :=
    if startswith (cps "/") link then cps "https://in.indeed.com" ++ link
    else link in
  let title := normalize_text (get_text a) in
  let snippet :=
    match parent_text a with
    | Some t => normalize_text t
    | None => []
    end in
  [ ("title", VStr title);
    ("company", VNone);
    ("location", VStr snippet);
    ("link", VStr link);
    ("source", VStr (cps "Indeed"));
    ("snippet", VStr snippet) ]%string.

Definition indeed_url (query_kw : pystr) : pystr :=
  let q := join (cps "+") (split query_kw) in
  cps "https://in.indeed.com/jobs?q=" ++ q ++ cps "+remote+cloud+devops&l=India".

Definition indeed_selector : pystr := cps "a[data-jk]".

(** The [try] block of [scrape_indeed], started with the current
    [results]: the list as the block leaves it, and the exception if it
    left by one. *)
Definition indeed_try (W : internet) (url : pystr) (results : list job)
  : list job * option exn :=
  match requests_get W url with
  | Raise e => (results, Some e)
  | Ok html =>
      match soup_select W html indeed_selector with
      | Raise e => (results, Some e)
      | Ok anchors =>
          (fold_left (fun results a => results ++ [indeed_record a])
                     (firstn 25 anchors) results,
           None)
      end
  end.

Definition scrape_indeed (W : internet) (query_kw : pystr) (out : stdout)
  : list job * stdout :=
  let results := [] in
  let url := indeed_url query_kw in
  match indeed_try W url results with
  | (results, None) => (results, out)
  | (results, Some e) => (results, print_error (cps "Indeed error:") e out)
  end.

Definition wellfound_record (link title : pystr) : job :=
  [ ("title", VStr title);
    ("company", VNone);
    ("location", VStr (cps "Remote"));
    ("link", VStr link);
    ("source", VStr (cps "Wellfound"));
    ("snippet", VStr title) ]%string.

(** One turn of the loop of [scrape_wellfound] on the set [seen] and the
    [results]. *)
Definition wellfound_step (state : list pystr * list job) (a : tag)
  : list pystr * list job :=
  let '(seen, results) := state in
  match attr_href a with
  | None | Some [] => state
  | Some href =>
      let link :=
        if startswith (cps "/") href then cps "https://wellfound.com" ++ href
        else href in
      if existsb (str_eqb link) seen then state
      else
        let seen := link :: seen in
        let title := normalize_text (get_text a) in
        (seen, results ++ [wellfound_record link title])
  end.

Definition wellfound_url (query_kw : pystr) : pystr :=
  let q := join (cps "+") (split query_kw) in
  cps "https://wellfound.com/jobs?search=" ++ q ++ cps "&remote=true".

Definition wellfound_selector : pystr :=
  cps "a[href*=" ++ dquote ++ cps "/jobs/" ++ dquote ++ cps "]".

Definition wellfound_try (W : internet) (url : pystr) (results : list job)
  : list job * option exn :=
  match requests_get W url with
  | Raise e => (results, Some e)
  | Ok html =>
      match soup_select W html wellfound_selector with
      | Raise e => (results, Some e)
      | Ok anchors =>
          (snd (fold_left wellfound_step anchors ([], results)), None)
      end
  end.

Definition scrape_wellfound (W : internet) (query_kw : pystr) (out : stdout)
  : list job * stdout :=
  let results := [] in
  let url := wellfound_url query_kw in
  match wellfound_try W url results with
  | (results, None) => (results, out)
  | (results, Some e) => (results, print_error (cps "Wellfound error:") e out)
  end.

(** ** Processing *)

(** The key of a record in [collect_jobs]:
    [job.get("link") or job.get("title")]. *)
Definition dedup_key (j : job) : value :=
  py_or (dict_get j "link" VNone) (dict_get j "title" VNone).

(** [key in unique] *)
Definition has_key (key : value) (unique : list (value * job)) : bool :=
  existsb (fun kv => value_eqb key (fst kv)) unique.

(** One turn of the second loop of [collect_jobs]; [unique] is a [dict],
    which keeps its keys in the order of their first insertion. *)
Definition unique_insert (unique : list (value * job)) (j : job)
  : list (value * job) :=
  let key := dedup_key j in
  if truthy key && negb (has_key key unique)
  then unique ++ [(key, j)]
  else unique.

(** The second loop of [collect_jobs] with the [list(unique.values())]
    that follows it. *)
Definition unique_jobs (jobs : list job) : list job :=
  let unique := fold_left unique_insert jobs [] in
  map snd unique.

(** The first loop of [collect_jobs]. *)
Definition fetch_all (W : internet) (out : stdout) : list job * stdout :=
  fold_left
    (fun '(jobs, out) kw =>
       let '(found, out) := scrape_indeed W kw out in
       let jobs := jobs ++ found in
       let '(found, out) := scrape_wellfound W kw out in
       (jobs ++ found, out))
    KEYWORDS ([], out).

Definition collect_jobs (W : internet) (out : stdout) : list job * stdout :=
  let '(jobs, out) := fetch_all W out in
  (unique_jobs jobs, out).

Section Filter.

Variable U : ucd.

Definition empty_str : value := VStr [].

(** The body of the loop of [filter_jobs] up to the tests: the text the
    predicates look at. *)
Definition combined_text (j : job) : result pystr :=
  joined <- join_values (cps " ")
              [ dict_get j "title" empty_str;
                dict_get j "company" empty_str;
                dict_get j "location" empty_str;
                dict_get j "snippet" empty_str ] ;;
  Ok (normalize_text joined).

Fixpoint filter_loop (jobs : list job) (filtered : list job)
  : result (list job) :=
  match jobs with
  | [] => Ok filtered
  | j :: rest =>
      combined <- combined_text j ;;
      if negb (text_contains_keywords U combined)
      then filter_loop rest filtered
      else
        let '(min_y, max_y) := parse_experience_text U combined in
        if negb (experience_matches min_y max_y)
        then filter_loop rest filtered
        else
          if negb (location_matches U (dict_get j "location" empty_str))
          then filter_loop rest filtered
          else filter_loop rest (filtered ++ [j])
  end.

Definition filter_jobs (jobs : list job) : result (list job) :=
  filter_loop jobs [].

End Filter.

(** ** Formatter *)

(** [s.replace(old, new)] for a pattern [old] of one character. *)
Definition replace_char (old : cp) (new : pystr) (s : pystr) : pystr :=
  flat_map (fun c => if cp_eqb c old then new else [c]) s.

(** [html.escape(s)] on a string, in the order of the library: the
    ampersand first, then the angle brackets, then the two quotes. *)
Definition escape_str (s : pystr) : pystr :=
  let s := replace_char 38%N (cps "&amp;") s in
  let s := replace_char 60%N (cps "&lt;") s in
  let s := replace_char 62%N (cps "&gt;") s in
  let s := replace_char 34%N (cps "&quot;") s in
  let s := replace_char 39%N (cps "&#x27;") s in
  s.

(** [html.escape(v)]: [None] has no [replace]. *)
Definition html_escape (v : value) : result pystr :=
  match v with
  | VStr s => Ok (escape_str s)
  | VNone =>
      Raise (AttributeError (cps "'NoneType' object has no attribute 'replace'"))
  end.

(** A value interpolated in an f-string. *)
Definition format_value (v : value) : pystr :=
  match v with
  | VStr s => s
  | VNone => cps "None"
  end.

(** The f-string of one row, its fields evaluated from left to right. *)
Definition email_row (i : nat) (j : job) : result pystr :=
  link <- dict_item j "link" ;;
  title <- (t <- dict_item j "title" ;; html_escape t) ;;
  company <-
    (let c := dict_get j "company" VNone in
     c <- (if truthy c then Ok c else dict_item j "source") ;;
     html_escape c) ;;
  location <-
    html_escape (py_or (dict_get j "location" VNone) (VStr [em_dash])) ;;
  Ok (cps "<tr>"
      ++ cps "<td>" ++ str_of_nat i ++ cps "</td>"
      ++ cps "<td><a href='" ++ format_value link ++ cps "'>" ++ title
      ++ cps "</a></td>"
      ++ cps "<td>" ++ company ++ cps "</td>"
      ++ cps "<td>" ++ location ++ cps "</td>"
      ++ cps "</tr>").

(** [for i, j in enumerate(jobs, 1): rows.append(...)], [i] the index of
    the head of [jobs]. *)
Fixpoint email_rows (i : nat) (jobs : list job) (rows : list pystr)
  : result (list pystr) :=
  match jobs with
  | [] => Ok rows
  | j :: rest =>
      row <- email_row i j ;;
      email_rows (S i) rest (rows ++ [row])
  end.

Definition table_open : pystr :=
  cps "<table border='1' cellpadding='6'>"
  ++ cps "<tr><th>#</th><th>Title</th><th>Company</th><th>Location</th></tr>".

Definition build_email_html (jobs : list job) : result pystr :=
  match jobs with
  | [] => Ok (cps "<p>No matching jobs found today.</p>")
  | _ =>
      rows <- email_rows 1 jobs [] ;;
      Ok (table_open ++ join [] rows ++ cps "</table>")
  end.

(** ** Notifier *)

(** [os.environ.get]: the value of a variable, [VNone] when it is unset. *)
Definition environ := string -> value.

Definition GMAIL_USER (env : environ) : value := env "GMAIL_USER"%string.
Definition GMAIL_APP_PASSWORD (env : environ) : value :=
  env "GMAIL_APP_PASSWORD"%string.
Definition EMAIL_TO (env : environ) : value :=
  match env "EMAIL_TO"%string with
  | VNone => GMAIL_USER env
  | v => v
  end.
Definition SENDER_NAME (env : environ) : value :=
  match env "SENDER_NAME"%string with
  | VNone => VStr (cps "Daily Job Bot")
  | v => v
  end.

Record message := {
  msg_from : pystr;
  msg_to : value;
  msg_subject : pystr;
  msg_html : pystr
}.

(** The [email] package as the script uses it.  Building the message
    object and setting its headers cannot fail; two steps can:
    [MIMEText(text, subtype)] encodes the text and raises when it cannot
    (a lone surrogate), and [msg.as_string()] serialises the message and
    raises on a header it refuses (an embedded line break followed by a
    header).  For the first the exception raised, if any; for the second
    the text or the exception. *)
Record email_package := {
  MIMEText : pystr -> pystr -> option exn;
  as_string : message -> result pystr
}.

(** The calls that reach the mail relay, the last one the end of the
    [with] block. *)
Inductive smtp_call :=
| SMTP (host : pystr) (port : Z)
| starttls
| login (user password : value)
| sendmail (from_addr to_addrs : value) (msg : pystr)
| quit.

(** The relay as the script sees it: for each call, the exception it
    raises, if any. *)
Definition relay := smtp_call -> option exn.

(** A computation that talks to the relay: the calls made so far go in,
    the calls made and the outcome come out. *)
Definition smtp (A : Type) := list smtp_call -> list smtp_call * result A.

Definition smtp_ret {A} (a : A) : smtp A := fun calls => (calls, Ok a).

Definition smtp_bind {A B} (c : smtp A) (k : A -> smtp B) : smtp B :=
  fun calls =>
    match c calls with
    | (calls', Ok a) => k a calls'
    | (calls', Raise e) => (calls', Raise e)
    end.

(** A step that does not talk to the relay. *)
Definition smtp_lift {A} (r : result A) : smtp A := fun calls => (calls, r).

Definition smtp_do (R : relay) (c : smtp_call) : smtp unit :=
  fun calls =>
    (calls ++ [c],
     match R c with
     | Some e => Raise e
     | None => Ok tt
     end).

(** [with server: body]: the connection is closed whichever way the body
    ends; an exception of the body goes on unless the closing raises one
    of its own. *)
Definition smtp_with (R : relay) (body : smtp unit) : smtp unit :=
  fun calls =>
    match body calls with
    | (calls', Ok tt) => smtp_do R quit calls'
    | (calls', Raise e) =>
        match smtp_do R quit calls' with
        | (calls'', Ok tt) => (calls'', Raise e)
        | (calls'', Raise e') => (calls'', Raise e')
        end
    end.

Notation "c1 >> c2" := (smtp_bind c1 (fun _ => c2))
  (at level 62, right associativity).

Definition send_email (env : environ) (L : email_package) (R : relay)
                      (subject body : pystr)
  : smtp unit :=
  fun calls =>
    if negb (truthy (GMAIL_USER env)) || negb (truthy (GMAIL_APP_PASSWORD env))
    then (calls, Raise (RuntimeError (cps "Gmail credentials not set")))
    else
      let msg :=
        {| msg_from := format_value (SENDER_NAME env) ++ cps " <"
                       ++ format_value (GMAIL_USER env) ++ cps ">";
           msg_to := EMAIL_TO env;
           msg_subject := subject;
           msg_html := body |} in
      match MIMEText L body (cps "html") with
      | Some e => (calls, Raise e)
      | None =>
          (smtp_do R (SMTP (cps "smtp.gmail.com") 587) >>
           smtp_with R
             (smtp_do R starttls >>
              smtp_do R (login (GMAIL_USER env) (GMAIL_APP_PASSWORD env)) >>
              smtp_bind (smtp_lift (as_string L msg))
                (fun text =>
                   smtp_do R (sendmail (GMAIL_USER env) (EMAIL_TO env) text))))
          calls
      end.

(** ** The run *)

Record outcome := {
  printed : stdout;
  smtp_calls : list smtp_call;
  returned : result unit
}.

Definition email_subject (today : pystr) : pystr :=
  cps "Daily Cloud & DevOps Jobs " ++ [en_dash] ++ cps " " ++ today.

(** [main()], with [today] the text of [datetime.utcnow().date()]. *)
Definition main (U : ucd) (env : environ) (W : internet)
                (L : email_package) (R : relay) (today : pystr) : outcome :=
  let '(jobs, out) := collect_jobs W [] in
  match (matches_ <- filter_jobs U jobs ;; build_email_html matches_) with
  | Raise e => {| printed := out; smtp_calls := []; returned := Raise e |}
  | Ok html_body =>
      let '(calls, r) :=
        send_email env L R (email_subject today) html_body [] in
      {| printed := out; smtp_calls := calls; returned := r |}
  end.

(** ** Reference definitions

    The shapes of text that the rules of the experience parser are said
    to recognise, written on the text itself, without patterns or
    matcher: a number is one or two decimal digits, a blank a possibly
    empty run of white space. *)

Section Shapes.

Variable U : ucd.

Definition is_number (d : pystr) : Prop :=
  1 <= length d <= 2 /\ forallb (is_digit U) d = true.

Definition blank (b : pystr) : Prop := forallb is_space b = true.

(** "N-M years" *)
Definition range_at (t : pystr) (n m : Z) : Prop :=
  exists pre d1 b1 dash b2 d2 b3 rest,
    t = pre ++ d1 ++ b1 ++ [dash] ++ b2 ++ d2 ++ b3 ++ cps "year" ++ rest
    /\ is_number d1 /\ blank b1 /\ is_dash dash = true /\ blank b2
    /\ is_number d2 /\ blank b3
    /\ n = int_of_digits U d1 /\ m = int_of_digits U d2.

(** "N+ years" *)
Definition plus_at (t : pystr) (n : Z) : Prop :=
  exists pre d b1 b2 rest,
    t = pre ++ d ++ b1 ++ cps "+" ++ b2 ++ cps "year" ++ rest
    /\ is_number d /\ blank b1 /\ blank b2
    /\ n = int_of_digits U d.

(** "minimum of N years" *)
Definition minimum_at (t : pystr) (n : Z) : Prop :=
  exists pre b1 b2 d b3 rest,
    t = pre ++ cps "minimum" ++ b1 ++ cps "of" ++ b2 ++ d ++ b3
        ++ cps "year" ++ rest
    /\ blank b1 /\ b1 <> [] /\ blank b2 /\ b2 <> []
    /\ is_number d /\ blank b3
    /\ n = int_of_digits U d.

(** "N years" *)
Definition plain_at (t : pystr) (n : Z) : Prop :=
  exists pre d b rest,
    t = pre ++ d ++ b ++ cps "year" ++ rest
    /\ is_number d /\ blank b
    /\ n = int_of_digits U d.

Definition has_range (t : pystr) : Prop := exists n m, range_at t n m.
Definition has_plus (t : pystr) : Prop := exists n, plus_at t n.
Definition has_minimum (t : pystr) : Prop := exists n, minimum_at t n.
Definition has_plain (t : pystr) : Prop := exists n, plain_at t n.

End Shapes.

(** The filter as the specification words it: the three predicates of a
    record whose text fields are strings, each on the normalised
    concatenation of title, company, location and snippet (the location
    test on the location field), and their conjunction. *)

Definition is_str (v : value) : bool :=
  match v with
  | VStr _ => true
  | VNone => false
  end.

Definition text_of (v : value) : pystr :=
  match v with
  | VStr s => s
  | VNone => []
  end.

Definition text_field (j : job) (key : string) : pystr :=
  text_of (dict_get j key (VStr [])).

Definition string_valued (j : job) : bool :=
  forallb (fun key => is_str (dict_get j key (VStr [])))
          ["title"; "company"; "location"; "snippet"]%string.

Section FilterReference.

Variable U : ucd.

Definition job_text (j : job) : pystr :=
  normalize_text
    (text_field j "title" ++ cps " " ++ text_field j "company" ++ cps " "
     ++ text_field j "location" ++ cps " " ++ text_field j "snippet").

Definition keyword_relevant (j : job) : bool :=
  text_contains_keywords U (job_text j).

Definition experience_match (j : job) : bool :=
  let '(lo, hi) := parse_experience_text U (job_text j) in
  experience_matches lo hi.

Definition location_match (j : job) : bool :=
  location_matches U (VStr (text_field j "location")).

Definition passes (j : job) : bool :=
  keyword_relevant j && experience_match j && location_match j.

End FilterReference.

(** A fetch or parse failure of a scraper call: the GET of the search
    page raises [e], or the page comes back and parsing it for the
    anchors raises [e]. *)
Definition fetch_fails (W : internet) (url selector : pystr) (e : exn) : Prop :=
  requests_get W url = Raise e
  \/ exists html,
       requests_get W url = Ok html /\ soup_select W html selector = Raise e.

(** The fetch sequence: for each keyword in turn, what Indeed gave, then
    what Wellfound gave. *)
Definition fetched (W : internet) : list job :=
  flat_map
    (fun kw => fst (scrape_indeed W kw []) ++ fst (scrape_wellfound W kw []))
    KEYWORDS.

(** De-duplication as the specification words it: the record at index
    [i] stays iff its key is not empty and no record before it has the
    same key. *)
Definition same_key (j j' : job) : bool :=
  value_eqb (dedup_key j) (dedup_key j').

Definition first_with_key (jobs : list job) (i : nat) (j : job) : bool :=
  truthy (dedup_key j) && negb (existsb (same_key j) (firstn i jobs)).

Definition first_seen (jobs : list job) : list job :=
  map snd
    (filter (fun ij => first_with_key jobs (fst ij) (snd ij))
            (combine (seq 0 (length jobs)) jobs)).

(** The key of a listing as the specification words it, read off the
    record itself: the link when the record has a link that is a
    non-empty string, and what it has as title otherwise. *)
Definition listing_key (j : job) : value :=
  match lookup j "link" with
  | Some (VStr (c :: link)) => VStr (c :: link)
  | _ =>
      match lookup j "title" with
      | Some title => title
      | None => VNone
      end
  end.

(** The record at index [i] is the first listing with its key. *)
Definition first_listing (jobs : list job) (i : nat) (j : job) : bool :=
  truthy (listing_key j)
  && negb (existsb (fun j' => value_eqb (listing_key j) (listing_key j'))
                   (firstn i jobs)).

Definition first_listings (jobs : list job) : list job :=
  map snd
    (filter (fun ij => first_listing jobs (fst ij) (snd ij))
            (combine (seq 0 (length jobs)) jobs)).

(** Every call of every scraper meets a fetch or parse failure. *)
Definition all_fetches_fail (W : internet) : Prop :=
  forall kw, In kw KEYWORDS ->
    (exists e, fetch_fails W (indeed_url kw) indeed_selector e)
    /\ (exists e, fetch_fails W (wellfound_url kw) wellfound_selector e).







Definition has_str (j : job) (key : string) : bool :=
  match lookup j key with
  | Some (VStr _) => true
  | _ => false
  end.



(** ** Sample data

    A database with nothing outside ASCII (other characters are left as
    they are by [lower] and none is a digit), five records of the kind
    the filter is meant for, an anchor, and three surroundings: a network
    where every page has that one anchor, a network that is down, and an
    environment with no variable set. *)

Definition ascii_only : ucd :=
  {| ucd_lower := fun s i => firstn 1 (skipn i s);
     ucd_decimal := fun _ => None |}.

Definition listing (title company location link snippet : string) : job :=
  [ ("title", VStr (cps title));
    ("company", VStr (cps company));
    ("location", VStr (cps location));
    ("link", VStr (cps link));
    ("source", VStr (cps "Indeed"));
    ("snippet", VStr (cps snippet)) ]%string.

Definition job_devops : job :=
  listing "Senior DevOps Engineer" "Acme" "Remote, India"
          "https://jobs.example/1" "3-5 years of experience with AWS".
Definition job_designer : job :=
  listing "Graphic Designer" "Acme" "Remote"
          "https://jobs.example/2" "2 years in a design studio".
Definition job_abroad : job :=
  listing "Cloud Engineer" "Initech" "San Francisco, CA"
          "https://jobs.example/3" "4 years of experience".
Definition job_senior : job :=
  listing "Site Reliability Engineer" "Globex" "India"
          "https://jobs.example/4" "8+ years running production systems".
Definition job_bare : job :=
  listing "Platform Engineer <Kubernetes>" "" "" "https://jobs.example/5" "".

Definition sample_jobs : list job :=
  [job_devops; job_designer; job_abroad; job_senior; job_bare].

(** Two records with the same link and different titles. *)
Definition job_first : job :=
  listing "Cloud Engineer" "" "Remote" "https://jobs.example/7" "".
Definition job_again : job :=
  listing "Cloud Engineer (m/f/d)" "" "Remote" "https://jobs.example/7" "".

Definition sample_tag : tag :=
  {| attr_href := Some (cps "/jobs/42");
     get_text := cps "  Cloud   Engineer ";
     parent_text := Some (cps "Cloud Engineer Remote 3-5 years") |}.

Definition sample_internet : internet :=
  {| requests_get := fun _ => Ok (cps "<html>");
     soup_select := fun _ _ => Ok [sample_tag] |}.

Definition internet_down : internet :=
  {| requests_get := fun _ => Raise (LibraryError (cps "Connection refused"));
     soup_select := fun _ _ => Ok [] |}.

Definition no_environment : environ := fun _ => VNone.

(** ** Further reference definitions

    What the remaining properties are stated with. *)

Definition nonspace (c : cp) : bool := negb (is_space c).

(** A word: not empty and free of white space. *)
Definition is_word (w : pystr) : Prop :=
  w <> [] /\ forallb nonspace w = true.

(** A text is tidy when its only white space is single U+0020 between two
    other characters: none at the start, none at the end, no two in a
    row.  [after_space] says that a space may not come next. *)
Fixpoint tidy_from (after_space : bool) (s : pystr) : bool :=
  match s with
  | [] => negb after_space
  | c :: s' =>
      if is_space c
      then cp_eqb c 32%N && negb after_space && tidy_from true s'
      else tidy_from false s'
  end.

Definition tidy (s : pystr) : bool :=
  match s with
  | [] => true
  | _ => tidy_from true s
  end.

(** The years an extracted pair of bounds stands for. *)
Definition in_range (min_y max_y : option Z) (y : Z) : Prop :=
  match min_y with Some lo => (lo <= y)%Z | None => True end
  /\ match max_y with Some hi => (y <= hi)%Z | None => True end.

Definition ordered_range (min_y max_y : option Z) : Prop :=
  match min_y, max_y with
  | Some lo, Some hi => (lo <= hi)%Z
  | _, _ => True
  end.

(** The digit values of the database are digits. *)
Definition decimal_digits (U : ucd) : Prop :=
  forall c d, ucd_decimal U c = Some d -> (0 <= d <= 9)%Z.

(** The terms that decide [text_contains_keywords]. *)
Definition relevant_terms : list pystr :=
  [ cps "devops"; cps "cloud"; cps "sre"; cps "site reliability";
    cps "platform engineer"; cps "infrastructure engineer";
    cps "aws engineer"; cps "kubernetes engineer" ].

Definition link_of (j : job) : value := dict_get j "link" VNone.

(** What the loop of [scrape_wellfound] keeps true of [seen] and
    [results]: the links of the records are the members of [seen], last
    seen first, all different and none empty. *)
Definition wellfound_invariant (state : list pystr * list job) : Prop :=
  map link_of (snd state) = map VStr (rev (fst state))
  /\ NoDup (fst state)
  /\ ~ In [] (fst state).

(** What [build_email_html] needs of a record: a link, whatever its
    value, a title that is a string, and a company to show or else a
    source that is a string. *)
Definition can_render (j : job) : bool :=
  match lookup j "link" with Some _ => true | None => false end
  && has_str j "title"
  && (truthy (dict_get j "company" VNone) || has_str j "source").

(** The errors a row of the table can end with. *)
Definition row_error (e : exn) : Prop :=
  e = KeyError "link" \/ e = KeyError "title" \/ e = KeyError "source"
  \/ exists msg, e = AttributeError msg.

Definition no_jobs_body : pystr := cps "<p>No matching jobs found today.</p>".

(** The calls of [send_email], in the order of the source. *)
Definition connect_call : smtp_call := SMTP (cps "smtp.gmail.com") 587.

Definition login_call (env : environ) : smtp_call :=
  login (GMAIL_USER env) (GMAIL_APP_PASSWORD env).

Definition email_message (env : environ) (subject body : pystr) : message :=
  {| msg_from := format_value (SENDER_NAME env) ++ cps " <"
                 ++ format_value (GMAIL_USER env) ++ cps ">";
     msg_to := EMAIL_TO env;
     msg_subject := subject;
     msg_html := body |}.

Definition sendmail_call (env : environ) (text : pystr) : smtp_call :=
  sendmail (GMAIL_USER env) (EMAIL_TO env) text.

(** A relay that accepts every call, and an environment with both
    credentials. *)
Definition relay_up : relay := fun _ => None.

(** An [email] package that accepts every text and header; the message
    text it gives is a stand-in. *)
Definition email_plain : email_package :=
  {| MIMEText := fun _ _ => None;
     as_string := fun msg =>
       Ok (cps "Subject: " ++ msg_subject msg ++ [10%N; 10%N] ++ msg_html msg) |}.

Definition sample_environment : environ :=
  fun name =>
    if String.eqb name "GMAIL_USER" then VStr (cps "bot@example.org")
    else if String.eqb name "GMAIL_APP_PASSWORD" then VStr (cps "secret")
    else VNone.

(** * Properties *)

(** ** Text *)

Lemma cp_eqb_eq (a b : cp) : cp_eqb a b = true <-> a = b.
Proof. unfold cp_eqb. apply N.eqb_eq. Qed.

Lemma cp_eqb_refl (a : cp) : cp_eqb a a = true.
Proof. apply cp_eqb_eq. reflexivity. Qed.

Lemma str_eqb_eq (a b : pystr) : str_eqb a b = true <-> a = b.
Proof.
  revert b. induction a as [|x a IH]; intros [|y b]; simpl; split;
    try discriminate; try reflexivity.
  - rewrite andb_true_iff, cp_eqb_eq, IH. intros [-> ->]. reflexivity.
  - intros E. injection E as -> ->.
    rewrite andb_true_iff, cp_eqb_eq, IH. split; reflexivity.
Qed.

Lemma strip_prefix_app (w s : pystr) : strip_prefix w (w ++ s) = Some s.
Proof.
  induction w as [|x w IH]; simpl; [reflexivity|].
  rewrite cp_eqb_refl. exact IH.
Qed.

Lemma strip_prefix_inv (w s s' : pystr) :
  strip_prefix w s = Some s' -> s = w ++ s'.
Proof.
  revert s. induction w as [|x w IH]; intros s; simpl.
  - intros E. injection E as ->. reflexivity.
  - destruct s as [|c s]; [discriminate|].
    destruct (cp_eqb x c) eqn:Exc; [|discriminate].
    apply cp_eqb_eq in Exc. subst c. intros E. f_equal. apply IH, E.
Qed.

(** ** The matcher against the reference

    Soundness: a successful run read a word the pattern matches and gave
    the continuation what is left.  Completeness: when some word at the
    head of the input is matched by the pattern and the continuation
    accepts what follows it, the run succeeds. *)

Lemma rep_sound {A} p (k : pystr -> option A) s :
  forall lo hi a,
    rep p lo hi s k = Some a ->
    exists w s', s = w ++ s' /\ forallb p w = true /\ lo <= length w
                 /\ within hi (length w) /\ k s' = Some a.
Proof.
  induction s as [|c s IH]; intros lo hi a.
  - simpl. destruct lo; [|discriminate]. intros E.
    exists [], []. repeat split; auto.
    destruct hi; simpl; lia.
  - assert (Stop : match lo with 0 => k (c :: s) | S _ => None end = Some a ->
             exists w s', c :: s = w ++ s' /\ forallb p w = true
                          /\ lo <= length w /\ within hi (length w)
                          /\ k s' = Some a).
    { destruct lo; [|discriminate]. intros E.
      exists [], (c :: s). repeat split; auto.
      destruct hi; simpl; lia. }
    simpl. destruct (p c && may_take hi) eqn:Take; [|exact Stop].
    destruct (rep p (pred lo) (option_map pred hi) s k) as [a'|] eqn:Deep;
      [|exact Stop].
    intros E. injection E as ->.
    apply andb_true_iff in Take. destruct Take as [Pc May].
    destruct (IH _ _ _ Deep) as (w & s' & -> & Pw & Lo & Hi & K).
    exists (c :: w), s'. simpl. rewrite Pc, Pw. repeat split; auto; [lia|].
    destruct hi as [[|h]|]; simpl in *; try discriminate; auto; lia.
Qed.

Lemma rep_complete {A} p (k : pystr -> option A) s' w :
  forall lo hi,
    forallb p w = true -> lo <= length w -> within hi (length w) ->
    k s' <> None ->
    rep p lo hi (w ++ s') k <> None.
Proof.
  induction w as [|c w IH]; intros lo hi Pw Lo Hi K.
  - simpl in Lo. assert (lo = 0) by lia. subst lo.
    destruct s' as [|c s']; simpl; [exact K|].
    destruct (p c && may_take hi); [|exact K].
    destruct (rep p 0 (option_map pred hi) s' k); [discriminate|exact K].
  - simpl in Pw, Lo, Hi. apply andb_true_iff in Pw. destruct Pw as [Pc Pw].
    assert (May : may_take hi = true).
    { destruct hi as [[|h]|]; simpl in *; auto; lia. }
    simpl. rewrite Pc, May. simpl.
    assert (Deep : rep p (pred lo) (option_map pred hi) (w ++ s') k <> None).
    { apply IH; auto; [lia|]. destruct hi as [h|]; simpl in *; auto; lia. }
    destruct (rep p (pred lo) (option_map pred hi) (w ++ s') k);
      [discriminate|contradiction].
Qed.

Lemma firstn_consumed (w s' : pystr) :
  firstn (length (w ++ s') - length s') (w ++ s') = w.
Proof.
  rewrite length_app.
  replace (length w + length s' - length s') with (length w + 0) by lia.
  rewrite firstn_app_2. simpl. apply app_nil_r.
Qed.

Lemma exec_sound {A} r :
  forall s caps (k : pystr -> captures -> option A) a,
    exec r s caps k = Some a ->
    exists w s' caps',
      s = w ++ s' /\ matches r w caps caps' /\ k s' caps' = Some a.
Proof.
  induction r as [p|w|r1 IH1 r2 IH2|p lo hi|n r IH]; intros s caps k a; simpl.
  - destruct s as [|c s]; [discriminate|].
    destruct (p c) eqn:Pc; [|discriminate]. intros K.
    exists [c], s, caps. repeat split; auto. constructor. exact Pc.
  - destruct (strip_prefix w s) as [s'|] eqn:E; [|discriminate]. intros K.
    apply strip_prefix_inv in E. exists w, s', caps. repeat split; auto.
    constructor.
  - intros E. apply IH1 in E. destruct E as (w1 & s1 & c1 & -> & M1 & E).
    apply IH2 in E. destruct E as (w2 & s2 & c2 & -> & M2 & K).
    exists (w1 ++ w2), s2, c2. rewrite app_assoc. repeat split; auto.
    econstructor; eassumption.
  - intros E. apply rep_sound in E.
    destruct E as (w & s' & -> & Pw & Lo & Hi & K).
    exists w, s', caps. repeat split; auto. constructor; auto.
  - intros E. apply IH in E. destruct E as (w & s' & c' & -> & M & K).
    rewrite firstn_consumed in K.
    exists w, s', ((n, w) :: c'). repeat split; auto. constructor. exact M.
Qed.

Lemma exec_complete {A} r :
  forall w c0 c1, matches r w c0 c1 ->
  forall s' caps (k : pystr -> captures -> option A),
    (forall c, k s' c <> None) ->
    exec r (w ++ s') caps k <> None.
Proof.
  induction r as [p|v|r1 IH1 r2 IH2|p lo hi|n r IH];
    intros w c0 c1 M s' caps k K; inversion M; subst; simpl.
  - match goal with H : p _ = true |- _ => rewrite H end. apply K.
  - rewrite strip_prefix_app. apply K.
  - rewrite <- app_assoc.
    eapply IH1; [eassumption|]. intros c.
    eapply IH2; [eassumption|]. exact K.
  - apply rep_complete; auto.
  - eapply IH; [eassumption|]. intros c. apply K.
Qed.

Lemma search_eq (r : regex) (s : pystr) :
  search r s =
  match match_here r s with
  | Some m => Some m
  | None => match s with [] => None | _ :: s' => search r s' end
  end.
Proof. destruct s; reflexivity. Qed.

Lemma match_here_sound r s caps :
  match_here r s = Some caps ->
  exists w rest, s = w ++ rest /\ matches r w [] caps.
Proof.
  unfold match_here. intros E. apply exec_sound in E.
  destruct E as (w & s' & c' & -> & M & K). injection K as ->.
  exists w, s'. split; auto.
Qed.

Lemma match_here_complete r w rest caps :
  matches r w [] caps -> match_here r (w ++ rest) <> None.
Proof.
  intros M. unfold match_here.
  eapply exec_complete; [eassumption|]. discriminate.
Qed.

(** [re.search] finds an occurrence of the pattern. *)
Lemma search_sound r t caps : search r t = Some caps -> occurs r t caps.
Proof.
  induction t as [|c t IH]; rewrite search_eq.
  - destruct (match_here r []) as [m|] eqn:E; [|discriminate].
    intros H. injection H as ->. apply match_here_sound in E.
    destruct E as (w & rest & E & M). exists [], w, rest. split; auto.
  - destruct (match_here r (c :: t)) as [m|] eqn:E.
    + intros H. injection H as ->. apply match_here_sound in E.
      destruct E as (w & rest & E & M). exists [], w, rest. split; auto.
    + intros H. destruct (IH H) as (pre & w & rest & -> & M).
      exists (c :: pre), w, rest. split; auto.
Qed.

(** [re.search] finds an occurrence whenever there is one. *)
Lemma search_complete r t caps : occurs r t caps -> search r t <> None.
Proof.
  intros (pre & w & rest & -> & M).
  induction pre as [|c pre IH]; rewrite search_eq.
  - simpl. pose proof (match_here_complete _ _ rest _ M) as C.
    destruct (match_here r (w ++ rest)); [discriminate|contradiction].
  - destruct (match_here r ((c :: pre) ++ w ++ rest)); [discriminate|].
    exact IH.
Qed.

(** [re.search] returns [None] only when the pattern occurs nowhere. *)
Lemma search_none r t : search r t = None -> forall caps, ~ occurs r t caps.
Proof.
  intros E caps O. apply search_complete in O. contradiction.
Qed.

(** No occurrence starts to the left of the one [re.search] reports. *)
Lemma search_leftmost r t caps :
  search r t = Some caps ->
  exists pre w rest,
    t = pre ++ w ++ rest /\ matches r w [] caps
    /\ forall pre' w' rest' caps',
         t = pre' ++ w' ++ rest' -> matches r w' [] caps' ->
         length pre <= length pre'.
Proof.
  induction t as [|c t IH]; rewrite search_eq.
  - destruct (match_here r []) as [m|] eqn:E; [|discriminate].
    intros H. injection H as ->. apply match_here_sound in E.
    destruct E as (w & rest & E & M). exists [], w, rest.
    repeat split; auto. intros. simpl. lia.
  - destruct (match_here r (c :: t)) as [m|] eqn:E.
    + intros H. injection H as ->. apply match_here_sound in E.
      destruct E as (w & rest & E & M). exists [], w, rest.
      repeat split; auto. intros. simpl. lia.
    + intros H. destruct (IH H) as (pre & w & rest & -> & M & Left).
      exists (c :: pre), w, rest. repeat split; auto.
      intros pre' w' rest' caps' E' M'. destruct pre' as [|c' pre'].
      * simpl in E'. pose proof (match_here_complete r w' rest' caps' M') as C.
        rewrite <- E', E in C. contradiction.
      * simpl in E'. injection E' as _ E'. simpl.
        apply le_n_S. eapply Left; eassumption.
Qed.

(** ** The experience parser *)

Ltac invert_matches :=
  repeat match goal with
  | M : matches (RSeq _ _) _ _ _ |- _ => inversion M; subst; clear M
  | M : matches (RGroup _ _) _ _ _ |- _ => inversion M; subst; clear M
  | M : matches (RRep _ _ _) _ _ _ |- _ => inversion M; subst; clear M
  | M : matches (RChar _) _ _ _ |- _ => inversion M; subst; clear M
  | M : matches (RLit _) _ _ _ |- _ => inversion M; subst; clear M
  end.

Ltac list_norm := repeat first [rewrite <- app_assoc | progress simpl].

Section ExperienceProperties.

Variable U : ucd.

Lemma matches_digits12 d c : is_number U d -> matches (digits12 U) d c c.
Proof. intros [[L1 L2] D]. constructor; simpl; auto. Qed.

Lemma matches_spaces b c : blank b -> matches spaces b c c.
Proof. intros B. constructor; simpl; auto. lia. Qed.

Lemma matches_spaces1 b c :
  blank b -> b <> [] -> matches (RRep is_space 1 None) b c c.
Proof.
  intros B N. constructor; simpl; auto.
  destruct b; [contradiction|simpl; lia].
Qed.

Lemma matches_years c : matches years (cps "year") c c.
Proof.
  unfold years. rewrite <- (app_nil_r (cps "year")) at 2.
  econstructor; [constructor|]. constructor; simpl; auto.
Qed.

(** The rest of the text after "year" is free: [s?] may take nothing. *)
Lemma years_word w c c' :
  matches years w c c' -> exists s, w = cps "year" ++ s /\ c' = c.
Proof.
  unfold years. intros M. invert_matches. eexists. split; reflexivity.
Qed.

Lemma range_of_occurrence t caps :
  occurs (pat_range U) t caps ->
  range_at U t (int_group U caps 1) (int_group U caps 2).
Proof.
  intros (pre & w & rest & -> & M). unfold pat_range in M.
  inversion M as [| |? ? d1 x1 ? ? ? G1 M1| |]; subst; clear M.
  inversion M1 as [| |? ? b1 x2 ? ? ? B1 M2| |]; subst; clear M1.
  inversion M2 as [| |? ? dash x3 ? ? ? D M3| |]; subst; clear M2.
  inversion M3 as [| |? ? b2 x4 ? ? ? B2 M4| |]; subst; clear M3.
  inversion M4 as [| |? ? d2 x5 ? ? ? G2 M5| |]; subst; clear M4.
  inversion M5 as [| |? ? b3 x6 ? ? ? B3 Y| |]; subst; clear M5.
  apply years_word in Y. destruct Y as (s & -> & ->).
  unfold digits12, spaces in *. invert_matches.
  match goal with H : is_dash ?c = true |- _ =>
    exists pre, d1, b1, c, b2, d2, b3, (s ++ rest) end.
  unfold is_number, blank, int_group. simpl in *.
  repeat split; auto. list_norm. reflexivity.
Qed.

Lemma occurrence_of_range t n m :
  range_at U t n m -> exists caps, occurs (pat_range U) t caps.
Proof.
  intros (pre & d1 & b1 & dash & b2 & d2 & b3 & rest & -> & N1 & B1 & D & B2
          & N2 & B3 & _ & _).
  exists [(2, d2); (1, d1)], pre,
    (d1 ++ b1 ++ [dash] ++ b2 ++ d2 ++ b3 ++ cps "year"), rest.
  split; [list_norm; reflexivity|].
  unfold pat_range.
  repeat (econstructor;
          eauto using matches_digits12, matches_spaces, matches_years).
Qed.

Lemma plus_of_occurrence t caps :
  occurs (pat_plus U) t caps -> plus_at U t (int_group U caps 1).
Proof.
  intros (pre & w & rest & -> & M). unfold pat_plus in M.
  inversion M as [| |? ? d x1 ? ? ? G1 M1| |]; subst; clear M.
  inversion M1 as [| |? ? b1 x2 ? ? ? B1 M2| |]; subst; clear M1.
  inversion M2 as [| |? ? sign x3 ? ? ? P M3| |]; subst; clear M2.
  inversion M3 as [| |? ? b2 x4 ? ? ? B2 Y| |]; subst; clear M3.
  apply years_word in Y. destruct Y as (s & -> & ->).
  unfold digits12, spaces in *. invert_matches.
  match goal with H : cp_eqb _ _ = true |- _ => apply cp_eqb_eq in H; subst end.
  exists pre, d, b1, b2, (s ++ rest).
  unfold is_number, blank, int_group. simpl in *.
  repeat split; auto. list_norm. reflexivity.
Qed.

Lemma occurrence_of_plus t n :
  plus_at U t n -> exists caps, occurs (pat_plus U) t caps.
Proof.
  intros (pre & d & b1 & b2 & rest & -> & N & B1 & B2 & _).
  exists [(1, d)], pre, (d ++ b1 ++ cps "+" ++ b2 ++ cps "year"), rest.
  split; [list_norm; reflexivity|].
  unfold pat_plus.
  repeat (econstructor;
          eauto using matches_digits12, matches_spaces, matches_years).
Qed.

Lemma minimum_of_occurrence t caps :
  occurs (pat_minimum U) t caps -> minimum_at U t (int_group U caps 1).
Proof.
  intros (pre & w & rest & -> & M). unfold pat_minimum in M.
  inversion M as [| |? ? l1 x1 ? ? ? L1 M1| |]; subst; clear M.
  inversion M1 as [| |? ? b1 x2 ? ? ? B1 M2| |]; subst; clear M1.
  inversion M2 as [| |? ? l2 x3 ? ? ? L2 M3| |]; subst; clear M2.
  inversion M3 as [| |? ? b2 x4 ? ? ? B2 M4| |]; subst; clear M3.
  inversion M4 as [| |? ? d x5 ? ? ? G M5| |]; subst; clear M4.
  inversion M5 as [| |? ? b3 x6 ? ? ? B3 Y| |]; subst; clear M5.
  apply years_word in Y. destruct Y as (s & -> & ->).
  unfold digits12, spaces in *. invert_matches.
  exists pre, b1, b2, d, b3, (s ++ rest).
  unfold is_number, blank, int_group. simpl in *.
  repeat split; auto; try (intros ->; simpl in *; lia).
  list_norm. reflexivity.
Qed.

Lemma occurrence_of_minimum t n :
  minimum_at U t n -> exists caps, occurs (pat_minimum U) t caps.
Proof.
  intros (pre & b1 & b2 & d & b3 & rest & -> & B1 & N1 & B2 & N2 & N & B3 & _).
  exists [(1, d)], pre,
    (cps "minimum" ++ b1 ++ cps "of" ++ b2 ++ d ++ b3 ++ cps "year"), rest.
  split; [list_norm; reflexivity|].
  unfold pat_minimum.
  repeat (econstructor;
          eauto using matches_digits12, matches_spaces, matches_spaces1,
                      matches_years).
Qed.

Lemma plain_of_occurrence t caps :
  occurs (pat_plain U) t caps -> plain_at U t (int_group U caps 1).
Proof.
  intros (pre & w & rest & -> & M). unfold pat_plain in M.
  inversion M as [| |? ? d x1 ? ? ? G M1| |]; subst; clear M.
  inversion M1 as [| |? ? b x2 ? ? ? B Y| |]; subst; clear M1.
  apply years_word in Y. destruct Y as (s & -> & ->).
  unfold digits12, spaces in *. invert_matches.
  exists pre, d, b, (s ++ rest).
  unfold is_number, blank, int_group. simpl in *.
  repeat split; auto. list_norm. reflexivity.
Qed.

Lemma occurrence_of_plain t n :
  plain_at U t n -> exists caps, occurs (pat_plain U) t caps.
Proof.
  intros (pre & d & b & rest & -> & N & B & _).
  exists [(1, d)], pre, (d ++ b ++ cps "year"), rest.
  split; [list_norm; reflexivity|].
  unfold pat_plain.
  repeat (econstructor;
          eauto using matches_digits12, matches_spaces, matches_years).
Qed.

(** What each of the four searches of [parse_experience_text] decides. *)
Lemma search_range t :
  match search (pat_range U) t with
  | Some m => range_at U t (int_group U m 1) (int_group U m 2)
  | None => ~ has_range U t
  end.
Proof.
  destruct (search (pat_range U) t) as [m|] eqn:E.
  - apply range_of_occurrence, search_sound, E.
  - intros (n & k & H). apply occurrence_of_range in H. destruct H as [c O].
    exact (search_none _ _ E _ O).
Qed.

Lemma search_plus t :
  match search (pat_plus U) t with
  | Some m => plus_at U t (int_group U m 1)
  | None => ~ has_plus U t
  end.
Proof.
  destruct (search (pat_plus U) t) as [m|] eqn:E.
  - apply plus_of_occurrence, search_sound, E.
  - intros (n & H). apply occurrence_of_plus in H. destruct H as [c O].
    exact (search_none _ _ E _ O).
Qed.

Lemma search_minimum t :
  match search (pat_minimum U) t with
  | Some m => minimum_at U t (int_group U m 1)
  | None => ~ has_minimum U t
  end.
Proof.
  destruct (search (pat_minimum U) t) as [m|] eqn:E.
  - apply minimum_of_occurrence, search_sound, E.
  - intros (n & H). apply occurrence_of_minimum in H. destruct H as [c O].
    exact (search_none _ _ E _ O).
Qed.

Lemma search_plain t :
  match search (pat_plain U) t with
  | Some m => plain_at U t (int_group U m 1)
  | None => ~ has_plain U t
  end.
Proof.
  destruct (search (pat_plain U) t) as [m|] eqn:E.
  - apply plain_of_occurrence, search_sound, E.
  - intros (n & H). apply occurrence_of_plain in H. destruct H as [c O].
    exact (search_none _ _ E _ O).
Qed.


(** C10. Whatever the text, [parse_experience_text] returns (None, None),
    (N, None) or (N, M), never a pair with only the upper bound; so a call
    of [experience_matches] on its result leaves neither through the
    branch for a lone upper bound nor through the final [return False]. *)
Theorem parse_experience_text_never_upper_only (text : pystr) :
  (parse_experience_text U text = (None, None)
   \/ (exists n, parse_experience_text U text = (Some n, None))
   \/ (exists n m, parse_experience_text U text = (Some n, Some m)))
  /\ (forall hi, parse_experience_text U text <> (None, Some hi))
  /\ (let '(min_y, max_y) := parse_experience_text U text in
      experience_exit min_y max_y <> UpperOnly
      /\ experience_exit min_y max_y <> FallThrough).
Proof.
  unfold parse_experience_text.
  destruct text as [|c text].
  { repeat split; auto; discriminate. }
  destruct (search (pat_range U) _);
    [repeat split; eauto; discriminate|].
  destruct (search (pat_plus U) _);
    [repeat split; eauto; discriminate|].
  destruct (search (pat_minimum U) _);
    [repeat split; eauto; discriminate|].
  destruct (search (pat_plain U) _);
    repeat split; eauto; discriminate.
Qed.

End ExperienceProperties.

(** The final [return False] of [experience_matches] is dead for every
    pair of arguments. *)
Lemma experience_exit_never_falls_through min_y max_y :
  experience_exit min_y max_y <> FallThrough.
Proof. destruct min_y, max_y; discriminate. Qed.

(** The value returned is the one of the statement left through. *)
Lemma experience_matches_by_exit min_y max_y :
  experience_matches min_y max_y =
  match experience_exit min_y max_y, min_y, max_y with
  | BothUnknown, _, _ => true
  | BothKnown, Some lo, Some hi =>
      negb ((hi <? MIN_YEARS)%Z || (lo >? MAX_YEARS)%Z)
  | LowerOnly, Some lo, _ => (lo <=? MAX_YEARS)%Z
  | UpperOnly, _, Some hi => (hi >=? MIN_YEARS)%Z
  | _, _, _ => false
  end.
Proof. destruct min_y, max_y; reflexivity. Qed.

(** C4. With the window [2, 6], [experience_matches] passes a pair with no
    bound; passes a pair with both bounds iff the ranges are not
    disjoint, that is, unless max < 2 or min > 6; passes a lone lower
    bound N iff N <= 6; passes a lone upper bound iff it is >= 2.  So
    (3,5), (None,None) and (1,2) pass while (7,None) and (None,1) fail. *)
Theorem experience_matches_window :
  MIN_YEARS = 2%Z /\ MAX_YEARS = 6%Z
  /\ experience_matches None None = true
  /\ (forall lo hi,
        experience_matches (Some lo) (Some hi) = true
        <-> ~ (hi < 2 \/ lo > 6)%Z)
  /\ (forall n, experience_matches (Some n) None = true <-> (n <= 6)%Z)
  /\ (forall n, experience_matches None (Some n) = true <-> (n >= 2)%Z)
  /\ experience_matches (Some 3%Z) (Some 5%Z) = true
  /\ experience_matches (Some 7%Z) None = false
  /\ experience_matches None (Some 1%Z) = false
  /\ experience_matches None None = true
  /\ experience_matches (Some 1%Z) (Some 2%Z) = true.
Proof.
  repeat split; try reflexivity; unfold experience_matches, MIN_YEARS, MAX_YEARS;
    try (rewrite negb_true_iff, orb_false_iff, Z.ltb_ge, Z.gtb_ltb, Z.ltb_ge);
    try rewrite Z.leb_le; try rewrite Z.geb_le; lia.
Qed.

(** ** The scrapers *)

Lemma fold_left_append {A B} (f : A -> B) (l : list A) :
  forall acc,
    fold_left (fun results a => results ++ [f a]) l acc = acc ++ map f l.
Proof.
  induction l as [|a l IH]; intros acc; simpl.
  - rewrite app_nil_r. reflexivity.
  - rewrite IH, <- app_assoc. reflexivity.
Qed.

Lemma scrape_indeed_fails W query_kw out e :
  fetch_fails W (indeed_url query_kw) indeed_selector e ->
  scrape_indeed W query_kw out
  = ([], out ++ [cps "Indeed error: " ++ exn_str e]).
Proof.
  unfold scrape_indeed, indeed_try, print_error.
  intros [G|(html & G & P)]; rewrite G; [|rewrite P]; reflexivity.
Qed.

Lemma scrape_wellfound_fails W query_kw out e :
  fetch_fails W (wellfound_url query_kw) wellfound_selector e ->
  scrape_wellfound W query_kw out
  = ([], out ++ [cps "Wellfound error: " ++ exn_str e]).
Proof.
  unfold scrape_wellfound, wellfound_try, print_error.
  intros [G|(html & G & P)]; rewrite G; [|rewrite P]; reflexivity.
Qed.

(** A scraper call returns its records and adds its lines to the output;
    the records do not depend on what was printed before. *)
Lemma scrape_indeed_out W query_kw out :
  scrape_indeed W query_kw out
  = (fst (scrape_indeed W query_kw []),
     out ++ snd (scrape_indeed W query_kw [])).
Proof.
  unfold scrape_indeed, print_error.
  destruct (indeed_try W (indeed_url query_kw) []) as [results [e|]]; simpl.
  - reflexivity.
  - rewrite app_nil_r. reflexivity.
Qed.

Lemma scrape_wellfound_out W query_kw out :
  scrape_wellfound W query_kw out
  = (fst (scrape_wellfound W query_kw []),
     out ++ snd (scrape_wellfound W query_kw [])).
Proof.
  unfold scrape_wellfound, print_error.
  destruct (wellfound_try W (wellfound_url query_kw) []) as [results [e|]];
    simpl.
  - reflexivity.
  - rewrite app_nil_r. reflexivity.
Qed.

Lemma scrape_indeed_records W query_kw out :
  exists anchors, fst (scrape_indeed W query_kw out) = map indeed_record anchors.
Proof.
  unfold scrape_indeed, indeed_try.
  destruct (requests_get W _) as [html|e]; [|exists []; reflexivity].
  destruct (soup_select W html _) as [anchors|e]; [|exists []; reflexivity].
  exists (firstn 25 anchors). cbn [fst]. rewrite fold_left_append. reflexivity.
Qed.

Lemma wellfound_step_records (P : job -> Prop) :
  (forall link title, P (wellfound_record link title)) ->
  forall anchors state,
    Forall P (snd state) ->
    Forall P (snd (fold_left wellfound_step anchors state)).
Proof.
  intros HP. induction anchors as [|a anchors IH]; intros [seen results] H;
    simpl; [exact H|].
  apply IH. unfold wellfound_step.
  destruct (attr_href a) as [[|c href]|]; try exact H.
  destruct (existsb _ seen); [exact H|].
  simpl. apply Forall_app. split; [exact H|]. constructor; [apply HP|constructor].
Qed.

Lemma scrape_wellfound_records (P : job -> Prop) W query_kw out :
  (forall link title, P (wellfound_record link title)) ->
  Forall P (fst (scrape_wellfound W query_kw out)).
Proof.
  intros HP. unfold scrape_wellfound, wellfound_try.
  destruct (requests_get W _) as [html|e]; [|constructor].
  destruct (soup_select W html _) as [anchors|e]; [|constructor].
  simpl. apply wellfound_step_records; [exact HP|constructor].
Qed.

(** The first loop of [collect_jobs] gathers the fetch sequence. *)
Lemma fetch_all_from W kws :
  forall jobs out,
    fst (fold_left
           (fun '(jobs, out) kw =>
              let '(found, out) := scrape_indeed W kw out in
              let jobs := jobs ++ found in
              let '(found, out) := scrape_wellfound W kw out in
              (jobs ++ found, out))
           kws (jobs, out))
    = jobs ++ flat_map
                (fun kw => fst (scrape_indeed W kw [])
                           ++ fst (scrape_wellfound W kw []))
                kws.
Proof.
  induction kws as [|kw kws IH]; intros jobs out; simpl.
  - rewrite app_nil_r. reflexivity.
  - rewrite (scrape_indeed_out W kw out).
    rewrite (scrape_wellfound_out W kw (out ++ _)).
    rewrite IH, <- !app_assoc. reflexivity.
Qed.

Lemma fetch_all_fetched W out : fst (fetch_all W out) = fetched W.
Proof. unfold fetch_all, fetched. rewrite fetch_all_from. reflexivity. Qed.

Lemma collect_jobs_unique W out :
  fst (collect_jobs W out) = unique_jobs (fetched W).
Proof.
  unfold collect_jobs. rewrite <- (fetch_all_fetched W out).
  destruct (fetch_all W out). reflexivity.
Qed.

Lemma fetched_company_none W j :
  In j (fetched W) -> lookup j "company" = Some VNone.
Proof.
  unfold fetched. rewrite in_flat_map. intros (kw & _ & H).
  apply in_app_or in H. destruct H as [H|H].
  - destruct (scrape_indeed_records W kw []) as [anchors E].
    rewrite E in H. apply in_map_iff in H. destruct H as (a & <- & _).
    reflexivity.
  - pose proof (scrape_wellfound_records
                  (fun j => lookup j "company" = Some VNone) W kw []
                  (fun _ _ => eq_refl)) as F.
    rewrite Forall_forall in F. apply F, H.
Qed.

(** ** De-duplication *)

Lemma value_eqb_eq (a b : value) : value_eqb a b = true <-> a = b.
Proof.
  destruct a as [|s], b as [|t]; simpl; split; try discriminate; auto.
  - intros E. apply str_eqb_eq in E. subst. reflexivity.
  - intros E. injection E as ->. apply str_eqb_eq. reflexivity.
Qed.

Lemma has_key_app key unique unique' :
  has_key key (unique ++ unique') = has_key key unique || has_key key unique'.
Proof. unfold has_key. apply existsb_app. Qed.

Lemma NoDup_snoc {A} (l : list A) (a : A) :
  NoDup l -> ~ In a l -> NoDup (l ++ [a]).
Proof.
  induction l as [|x l IH]; simpl; intros N Hn.
  - constructor; [intros []|constructor].
  - inversion N as [|? ? Hx N']; subst. constructor.
    + rewrite in_app_iff. simpl. intros [H|[H|[]]]; [contradiction|].
      subst. apply Hn. left. reflexivity.
    + apply IH; [exact N'|]. intros H. apply Hn. right. exact H.
Qed.

Lemma combine_snoc {A B} (l : list A) (l' : list B) a b :
  length l = length l' ->
  combine (l ++ [a]) (l' ++ [b]) = combine l l' ++ [(a, b)].
Proof.
  revert l'. induction l as [|x l IH]; intros [|y l']; simpl;
    try discriminate; [reflexivity|].
  intros E. injection E as E. rewrite IH by exact E. reflexivity.
Qed.

(** The keys in the [dict] after the loop has read [jobs] are the
    non-empty keys of [jobs]. *)
Lemma has_key_unique jobs key :
  truthy key = true ->
  has_key key (fold_left unique_insert jobs [])
  = existsb (fun j' => value_eqb key (dedup_key j')) jobs.
Proof.
  intros T. induction jobs as [|j jobs IH] using rev_ind; [reflexivity|].
  rewrite fold_left_app, existsb_app. simpl. rewrite orb_false_r.
  unfold unique_insert at 1.
  destruct (truthy (dedup_key j) && negb (has_key (dedup_key j) _)) eqn:Ins.
  - rewrite has_key_app, IH. simpl. rewrite orb_false_r. reflexivity.
  - rewrite IH.
    destruct (value_eqb key (dedup_key j)) eqn:E;
      [|rewrite orb_false_r; reflexivity].
    apply value_eqb_eq in E. subst key. rewrite T in Ins. simpl in Ins.
    apply negb_false_iff in Ins. rewrite <- IH, Ins. reflexivity.
Qed.

Lemma first_with_key_prefix pre j i x :
  i <= length pre ->
  first_with_key (pre ++ [j]) i x = first_with_key pre i x.
Proof.
  intros L. unfold first_with_key. rewrite firstn_app.
  replace (i - length pre) with 0 by lia. simpl. rewrite app_nil_r.
  reflexivity.
Qed.

Lemma first_seen_snoc pre j :
  first_seen (pre ++ [j])
  = first_seen pre
    ++ (if truthy (dedup_key j) && negb (existsb (same_key j) pre)
        then [j] else []).
Proof.
  unfold first_seen. rewrite length_app. simpl.
  rewrite seq_app. simpl.
  rewrite combine_snoc by (rewrite length_seq; reflexivity).
  rewrite filter_app, map_app. f_equal.
  - f_equal. apply filter_ext_in. intros [i x] Hin. simpl.
    apply first_with_key_prefix.
    apply in_combine_l in Hin. apply in_seq in Hin. lia.
  - simpl. unfold first_with_key at 1.
    rewrite firstn_app, firstn_all, Nat.sub_diag. simpl. rewrite app_nil_r.
    destruct (truthy (dedup_key j) && negb (existsb (same_key j) pre));
      reflexivity.
Qed.

Lemma unique_jobs_first_seen jobs : unique_jobs jobs = first_seen jobs.
Proof.
  unfold unique_jobs.
  induction jobs as [|j jobs IH] using rev_ind; [reflexivity|].
  rewrite fold_left_app, first_seen_snoc. simpl.
  unfold unique_insert at 1.
  destruct (truthy (dedup_key j)) eqn:T; simpl.
  - rewrite (has_key_unique jobs _ T). fold (same_key j).
    destruct (existsb (same_key j) jobs); simpl.
    + rewrite app_nil_r. exact IH.
    + rewrite map_app, IH. reflexivity.
  - rewrite app_nil_r. exact IH.
Qed.

Lemma first_seen_incl jobs j : In j (first_seen jobs) -> In j jobs.
Proof.
  unfold first_seen. rewrite in_map_iff. intros ([i x] & <- & H).
  apply filter_In in H. destruct H as [H _].
  apply in_combine_r in H. exact H.
Qed.

Lemma first_seen_truthy jobs j :
  In j (first_seen jobs) -> truthy (dedup_key j) = true.
Proof.
  unfold first_seen. rewrite in_map_iff. intros ([i x] & <- & H).
  apply filter_In in H. destruct H as [_ H]. simpl in H.
  unfold first_with_key in H. apply andb_true_iff in H. tauto.
Qed.

Lemma first_seen_keys_distinct jobs :
  NoDup (map dedup_key (first_seen jobs)).
Proof.
  induction jobs as [|j jobs IH] using rev_ind; [constructor|].
  rewrite first_seen_snoc.
  destruct (truthy (dedup_key j) && negb (existsb (same_key j) jobs)) eqn:K.
  - rewrite map_app. simpl. apply NoDup_snoc; [exact IH|].
    rewrite in_map_iff. intros (j' & E & Hin).
    apply first_seen_incl in Hin.
    apply andb_true_iff in K. destruct K as [_ K].
    apply negb_true_iff in K.
    assert (X : existsb (same_key j) jobs = true).
    { apply existsb_exists. exists j'. split; [exact Hin|].
      unfold same_key. apply value_eqb_eq. symmetry. exact E. }
    rewrite X in K. discriminate.
  - rewrite app_nil_r. exact IH.
Qed.

(** What the index test of [first_seen] says in terms of keys. *)
Lemma first_with_key_spec jobs i j :
  first_with_key jobs i j = true <->
  truthy (dedup_key j) = true
  /\ forall i' j', i' < i -> nth_error jobs i' = Some j' ->
                   dedup_key j' <> dedup_key j.
Proof.
  unfold first_with_key. rewrite andb_true_iff, negb_true_iff.
  apply and_iff_compat_l. split.
  - intros H i' j' Lt Nth E.
    assert (X : existsb (same_key j) (firstn i jobs) = true);
      [|rewrite X in H; discriminate].
    apply existsb_exists. exists j'. split.
    + apply nth_error_In with (n := i').
      rewrite nth_error_firstn.
      destruct (Nat.ltb_spec i' i); [exact Nth|lia].
    + unfold same_key. apply value_eqb_eq. symmetry. exact E.
  - intros H. destruct (existsb (same_key j) (firstn i jobs)) eqn:X;
      [|reflexivity].
    apply existsb_exists in X. destruct X as (j' & Hin & E).
    apply In_nth_error in Hin. destruct Hin as [i' Nth].
    assert (Lt : i' < i).
    { assert (L : i' < length (firstn i jobs)).
      { apply nth_error_Some. rewrite Nth. discriminate. }
      rewrite length_firstn in L. lia. }
    rewrite nth_error_firstn in Nth.
    destruct (Nat.ltb_spec i' i); [|lia].
    exfalso. apply (H i' j' Lt Nth).
    unfold same_key in E. apply value_eqb_eq in E. symmetry. exact E.
Qed.

(** ** Aggregation *)

(** The key the loop computes is the key of the listing. *)
Lemma dedup_key_listing j : dedup_key j = listing_key j.
Proof.
  unfold dedup_key, listing_key, py_or, dict_get.
  destruct (lookup j "link") as [[|[|c link]]|];
    destruct (lookup j "title") as [title|]; reflexivity.
Qed.

Lemma first_with_key_listing jobs i j :
  first_with_key jobs i j = first_listing jobs i j.
Proof.
  unfold first_with_key, first_listing, same_key.
  rewrite dedup_key_listing. f_equal. f_equal.
  induction (firstn i jobs) as [|x l IH]; [reflexivity|].
  simpl. rewrite IH, dedup_key_listing. reflexivity.
Qed.

Lemma first_seen_listings jobs : first_seen jobs = first_listings jobs.
Proof.
  unfold first_seen, first_listings. f_equal. apply filter_ext.
  intros [i j]. apply first_with_key_listing.
Qed.

Lemma unique_jobs_same_key j1 j2 :
  truthy (listing_key j1) = true -> listing_key j2 = listing_key j1 ->
  unique_jobs [j1; j2] = [j1].
Proof.
  rewrite <- !dedup_key_listing. intros T E. unfold unique_jobs. simpl.
  unfold unique_insert at 2. rewrite T. simpl.
  unfold unique_insert. rewrite E, T. unfold has_key. simpl.
  assert (X : value_eqb (dedup_key j1) (dedup_key j1) = true)
    by (apply value_eqb_eq; reflexivity).
  rewrite X. reflexivity.
Qed.

Lemma unique_jobs_other_key j1 j2 :
  truthy (listing_key j1) = true -> truthy (listing_key j2) = true ->
  listing_key j1 <> listing_key j2 ->
  unique_jobs [j1; j2] = [j1; j2].
Proof.
  rewrite <- !dedup_key_listing. intros T1 T2 D. unfold unique_jobs. simpl.
  unfold unique_insert at 2. rewrite T1. simpl.
  unfold unique_insert. rewrite T2. unfold has_key. simpl.
  destruct (value_eqb (dedup_key j2) (dedup_key j1)) eqn:X; [|reflexivity].
  apply value_eqb_eq in X. symmetry in X. contradiction.
Qed.

(** C5. [collect_jobs] returns the fetch sequence (for each keyword the
    records of Indeed, then those of Wellfound) without its duplicates,
    the key of a record being its link when that is a non-empty string
    and its title otherwise: a record stays iff its key is not empty and
    no earlier record of the sequence has the same key.  The records
    that stay keep their order and their keys are pairwise distinct.  Of
    two records with the same non-empty link only the first is kept,
    whatever their titles; of two records without a link and with the
    same non-empty title only the first is kept; two records with
    different non-empty keys are both kept. *)
Theorem collect_jobs_first_seen_wins (W : internet) (out : stdout) :
  let jobs := fetched W in
  let kept := fst (collect_jobs W out) in
  kept = first_listings jobs
  /\ NoDup (map listing_key kept)
  /\ (forall i j,
        first_listing jobs i j = true <->
        truthy (listing_key j) = true
        /\ forall i' j', i' < i -> nth_error jobs i' = Some j' ->
                         listing_key j' <> listing_key j)
  /\ (forall j1 j2 c link,
        lookup j1 "link" = Some (VStr (c :: link)) ->
        lookup j2 "link" = Some (VStr (c :: link)) ->
        unique_jobs [j1; j2] = [j1])
  /\ (forall j1 j2 c title,
        truthy (dict_get j1 "link" VNone) = false ->
        truthy (dict_get j2 "link" VNone) = false ->
        lookup j1 "title" = Some (VStr (c :: title)) ->
        lookup j2 "title" = Some (VStr (c :: title)) ->
        unique_jobs [j1; j2] = [j1])
  /\ (forall j1 j2,
        truthy (listing_key j1) = true -> truthy (listing_key j2) = true ->
        listing_key j1 <> listing_key j2 ->
        unique_jobs [j1; j2] = [j1; j2]).
Proof.
  cbv zeta. rewrite collect_jobs_unique, unique_jobs_first_seen.
  split; [apply first_seen_listings|].
  split.
  { pose proof (first_seen_keys_distinct (fetched W)) as N.
    rewrite (map_ext _ _ dedup_key_listing) in N. exact N. }
  split.
  { intros i j. rewrite <- first_with_key_listing, first_with_key_spec.
    rewrite !dedup_key_listing. apply and_iff_compat_l.
    split; intros H i' j' Lt Nth; specialize (H i' j' Lt Nth);
      rewrite ?dedup_key_listing in *; exact H. }
  split.
  { intros j1 j2 c link L1 L2. apply unique_jobs_same_key;
      unfold listing_key; rewrite ?L1, ?L2; reflexivity. }
  split.
  { intros j1 j2 c title F1 F2 T1 T2. unfold dict_get in F1, F2.
    apply unique_jobs_same_key; unfold listing_key; rewrite ?T1, ?T2;
      destruct (lookup j1 "link") as [[|[|x l1]]|];
      destruct (lookup j2 "link") as [[|[|y l2]]|];
      try discriminate; reflexivity. }
  apply unique_jobs_other_key.
Qed.

(** C6. Every record [collect_jobs] returns has a non-empty key, so a
    non-empty link or a non-empty title, the key being the link whenever
    the link is not empty and the title otherwise; a record whose link
    and title are both empty is not among them. *)
Theorem collect_jobs_key_not_empty (W : internet) (out : stdout) (j : job) :
  In j (fst (collect_jobs W out)) ->
  truthy (dedup_key j) = true
  /\ (truthy (dict_get j "link" VNone) = true
      \/ truthy (dict_get j "title" VNone) = true)
  /\ (truthy (dict_get j "link" VNone) = true ->
      dedup_key j = dict_get j "link" VNone)
  /\ (truthy (dict_get j "link" VNone) = false ->
      dedup_key j = dict_get j "title" VNone).
Proof.
  rewrite collect_jobs_unique, unique_jobs_first_seen. intros H.
  apply first_seen_truthy in H. split; [exact H|].
  unfold dedup_key, py_or in *.
  destruct (truthy (dict_get j "link" VNone)) eqn:L; repeat split; auto;
    discriminate.
Qed.

(** The same for the loop on any list of records. *)
Lemma unique_jobs_key_not_empty jobs j :
  In j (unique_jobs jobs) ->
  truthy (dict_get j "link" VNone) = true
  \/ truthy (dict_get j "title" VNone) = true.
Proof.
  rewrite unique_jobs_first_seen. intros H. apply first_seen_truthy in H.
  unfold dedup_key, py_or in H.
  destruct (truthy (dict_get j "link" VNone)); auto.
Qed.

Lemma fetch_all_lines W kws :
  forall jobs out,
    snd (fold_left
           (fun '(jobs, out) kw =>
              let '(found, out) := scrape_indeed W kw out in
              let jobs := jobs ++ found in
              let '(found, out) := scrape_wellfound W kw out in
              (jobs ++ found, out))
           kws (jobs, out))
    = out ++ flat_map
               (fun kw => snd (scrape_indeed W kw [])
                          ++ snd (scrape_wellfound W kw []))
               kws.
Proof.
  induction kws as [|kw kws IH]; intros jobs out; simpl.
  - rewrite app_nil_r. reflexivity.
  - rewrite (scrape_indeed_out W kw out).
    rewrite (scrape_wellfound_out W kw (out ++ _)).
    rewrite IH, <- !app_assoc. reflexivity.
Qed.

Lemma collect_jobs_printed W out :
  snd (collect_jobs W out)
  = out ++ flat_map
             (fun kw => snd (scrape_indeed W kw [])
                        ++ snd (scrape_wellfound W kw []))
             KEYWORDS.
Proof.
  assert (E : snd (fetch_all W out)
              = out ++ flat_map
                         (fun kw => snd (scrape_indeed W kw [])
                                    ++ snd (scrape_wellfound W kw []))
                         KEYWORDS)
    by (unfold fetch_all; apply fetch_all_lines).
  rewrite <- E. unfold collect_jobs. destruct (fetch_all W out). reflexivity.
Qed.

Lemma failing_fetches W kws :
  (forall kw, In kw kws ->
     (exists e, fetch_fails W (indeed_url kw) indeed_selector e)
     /\ (exists e, fetch_fails W (wellfound_url kw) wellfound_selector e)) ->
  flat_map (fun kw => fst (scrape_indeed W kw [])
                      ++ fst (scrape_wellfound W kw [])) kws = []
  /\ length (flat_map (fun kw => snd (scrape_indeed W kw [])
                                 ++ snd (scrape_wellfound W kw [])) kws)
     = 2 * length kws.
Proof.
  induction kws as [|kw kws IH]; intros H; [split; reflexivity|].
  destruct (H kw (or_introl eq_refl)) as [[e1 F1] [e2 F2]].
  destruct IH as [IH1 IH2]; [intros k Hk; apply H; right; exact Hk|].
  simpl. rewrite (scrape_indeed_fails _ _ [] _ F1), (scrape_wellfound_fails _ _ [] _ F2).
  simpl. rewrite IH1, IH2. split; [reflexivity|lia].
Qed.

(** C7. A call of a scraper that meets a fetch or parse failure prints
    the error and returns the empty list, for Indeed and for Wellfound
    alike; the run goes on: when every call fails, [collect_jobs] still
    returns, with no record and one line printed per call, and [main]
    goes on to send the mail that says no job was found. *)
Theorem fetch_failure_is_not_fatal :
  (forall W query_kw out e,
     fetch_fails W (indeed_url query_kw) indeed_selector e ->
     scrape_indeed W query_kw out
     = ([], out ++ [cps "Indeed error: " ++ exn_str e]))
  /\ (forall W query_kw out e,
     fetch_fails W (wellfound_url query_kw) wellfound_selector e ->
     scrape_wellfound W query_kw out
     = ([], out ++ [cps "Wellfound error: " ++ exn_str e]))
  /\ (forall U env W L R today,
     all_fetches_fail W ->
     fst (collect_jobs W []) = []
     /\ length (snd (collect_jobs W [])) = 16
     /\ main U env W L R today
        = let '(calls, r) :=
            send_email env L R (email_subject today)
                       (cps "<p>No matching jobs found today.</p>") [] in
          {| printed := snd (collect_jobs W []);
             smtp_calls := calls;
             returned := r |}).
Proof.
  split; [intros; apply scrape_indeed_fails; assumption|].
  split; [intros; apply scrape_wellfound_fails; assumption|].
  intros U env W L R today F.
  destruct (failing_fetches W KEYWORDS F) as [J N].
  assert (E1 : fst (collect_jobs W []) = []).
  { rewrite collect_jobs_unique. unfold fetched. rewrite J. reflexivity. }
  assert (E2 : length (snd (collect_jobs W [])) = 16).
  { rewrite collect_jobs_printed. cbn [app]. rewrite N. reflexivity. }
  split; [exact E1|]. split; [exact E2|].
  unfold main. destruct (collect_jobs W []) as [jobs lines]. simpl in E1.
  subst jobs. reflexivity.
Qed.

(** ** The filter *)

Lemma strings_from_raises items :
  forall i e, strings_from items i = Raise e -> exists msg, e = TypeError msg.
Proof.
  induction items as [|v items IH]; intros i e; simpl; [discriminate|].
  destruct v as [|s].
  - intros E. injection E as <-. eexists. reflexivity.
  - destruct (strings_from items (S i)) as [l|e'] eqn:E'; simpl; [discriminate|].
    intros E. injection E as <-. eapply IH, E'.
Qed.

Section FilterProperties.

Variable U : ucd.

Lemma combined_text_raises j e :
  combined_text j = Raise e -> exists msg, e = TypeError msg.
Proof.
  unfold combined_text, join_values.
  destruct (strings_from _ 0) as [l|e'] eqn:E; simpl; [discriminate|].
  intros H. injection H as <-. eapply strings_from_raises, E.
Qed.

Lemma combined_text_string_valued j :
  string_valued j = true -> combined_text j = Ok (job_text j).
Proof.
  unfold string_valued, combined_text, job_text, text_field, join_values,
    empty_str.
  simpl.
  destruct (dict_get j "title" (VStr [])); [discriminate|].
  destruct (dict_get j "company" (VStr [])); [discriminate|].
  destruct (dict_get j "location" (VStr [])); [discriminate|].
  destruct (dict_get j "snippet" (VStr [])); [discriminate|].
  reflexivity.
Qed.

Lemma combined_text_returns j text :
  combined_text j = Ok text -> string_valued j = true.
Proof.
  unfold string_valued, combined_text, join_values, empty_str. simpl.
  destruct (dict_get j "title" (VStr [])); [discriminate|].
  destruct (dict_get j "company" (VStr [])); [discriminate|].
  destruct (dict_get j "location" (VStr [])); [discriminate|].
  destruct (dict_get j "snippet" (VStr [])); [discriminate|].
  reflexivity.
Qed.

Lemma combined_text_company_none j :
  lookup j "company" = Some VNone ->
  exists msg, combined_text j = Raise (TypeError msg).
Proof.
  intros C.
  destruct (combined_text j) as [text|e] eqn:E.
  - apply combined_text_returns in E. unfold string_valued in E. simpl in E.
    unfold dict_get in E at 2. rewrite C in E. simpl in E.
    rewrite andb_false_r in E. discriminate.
  - apply combined_text_raises in E. destruct E as [msg ->]. eauto.
Qed.

Lemma filter_loop_string_valued jobs :
  forall filtered,
    forallb string_valued jobs = true ->
    filter_loop U jobs filtered = Ok (filtered ++ filter (passes U) jobs).
Proof.
  induction jobs as [|j jobs IH]; intros filtered; simpl.
  - intros _. rewrite app_nil_r. reflexivity.
  - intros H. apply andb_true_iff in H. destruct H as [Hj Hjobs].
    rewrite (combined_text_string_valued _ Hj). simpl.
    unfold passes, keyword_relevant, experience_match, location_match.
    destruct (text_contains_keywords U (job_text j)); simpl; [|auto].
    destruct (parse_experience_text U (job_text j)) as [min_y max_y].
    destruct (experience_matches min_y max_y); simpl; [|auto].
    assert (L : dict_get j "location" empty_str = VStr (text_field j "location")).
    { unfold string_valued in Hj. simpl in Hj. unfold text_field, empty_str.
      destruct (dict_get j "location" (VStr [])); [|reflexivity].
      rewrite !andb_false_r in Hj. discriminate. }
    rewrite L.
    destruct (location_matches U (VStr (text_field j "location"))); simpl;
      [|auto].
    rewrite IH by exact Hjobs. rewrite <- app_assoc. reflexivity.
Qed.

Lemma filter_loop_company_none jobs :
  forall filtered,
    (exists j, In j jobs /\ lookup j "company" = Some VNone) ->
    exists msg, filter_loop U jobs filtered = Raise (TypeError msg).
Proof.
  induction jobs as [|j0 jobs IH]; intros filtered (j & Hin & C).
  - destruct Hin.
  - simpl. destruct (combined_text j0) as [text|e] eqn:E; simpl.
    + assert (Rest : exists j, In j jobs /\ lookup j "company" = Some VNone).
      { destruct Hin as [->|Hin]; [|eauto].
        destruct (combined_text_company_none _ C) as [msg E'].
        rewrite E' in E. discriminate. }
      destruct (text_contains_keywords U text); simpl; [|auto].
      destruct (parse_experience_text U text) as [min_y max_y].
      destruct (experience_matches min_y max_y); simpl; [|auto].
      destruct (location_matches U _); simpl; auto.
    + apply combined_text_raises in E. destruct E as [msg ->]. eauto.
Qed.

Lemma filter_loop_returns jobs :
  forall filtered out,
    filter_loop U jobs filtered = Ok out -> forallb string_valued jobs = true.
Proof.
  induction jobs as [|j jobs IH]; intros filtered out; simpl; [reflexivity|].
  destruct (combined_text j) as [text|e] eqn:E; simpl; [|discriminate].
  rewrite (combined_text_returns _ _ E). simpl.
  destruct (text_contains_keywords U text); simpl; [|apply IH].
  destruct (parse_experience_text U text) as [min_y max_y].
  destruct (experience_matches min_y max_y); simpl; [|apply IH].
  destruct (location_matches U _); simpl; apply IH.
Qed.

(** C1. On records whose text fields are strings, [filter_jobs] returns
    exactly the records that pass the keyword, the experience and the
    location test, in their original order; a record that fails one of
    the three is left out. *)
Theorem filter_jobs_keeps_passing (jobs : list job) :
  forallb string_valued jobs = true ->
  filter_jobs U jobs = Ok (filter (passes U) jobs)
  /\ (forall j,
        In j (filter (passes U) jobs) <->
        In j jobs /\ keyword_relevant U j = true
        /\ experience_match U j = true /\ location_match U j = true).
Proof.
  intros H. split.
  - unfold filter_jobs. rewrite filter_loop_string_valued by exact H.
    reflexivity.
  - intros j. rewrite filter_In. unfold passes.
    rewrite !andb_true_iff. tauto.
Qed.

(** C2. Both scrapers build their records with the key 'company' set to
    [None], and on a list that holds such a record [filter_jobs] raises a
    [TypeError], from the join of title, company, location and snippet;
    so it does on whatever [collect_jobs] returns, unless that is empty.
    [filter_jobs] returns only when the four text fields of every record
    are strings. *)
Theorem filter_jobs_company_none :
  (forall W query_kw out j,
     In j (fst (scrape_indeed W query_kw out)) ->
     lookup j "company" = Some VNone)
  /\ (forall W query_kw out j,
     In j (fst (scrape_wellfound W query_kw out)) ->
     lookup j "company" = Some VNone)
  /\ (forall jobs,
     (exists j, In j jobs /\ lookup j "company" = Some VNone) ->
     exists msg, filter_jobs U jobs = Raise (TypeError msg))
  /\ (forall W out,
     fst (collect_jobs W out) <> [] ->
     exists msg, filter_jobs U (fst (collect_jobs W out)) = Raise (TypeError msg))
  /\ (forall jobs kept,
     filter_jobs U jobs = Ok kept -> forallb string_valued jobs = true).
Proof.
  split.
  { intros W kw out j H.
    destruct (scrape_indeed_records W kw out) as [anchors E].
    rewrite E in H. apply in_map_iff in H. destruct H as (a & <- & _).
    reflexivity. }
  split.
  { intros W kw out j H.
    pose proof (scrape_wellfound_records
                  (fun j => lookup j "company" = Some VNone) W kw out
                  (fun _ _ => eq_refl)) as F.
    rewrite Forall_forall in F. apply F, H. }
  split.
  { intros jobs H. apply filter_loop_company_none, H. }
  split.
  { intros W out H. apply filter_loop_company_none.
    destruct (fst (collect_jobs W out)) as [|j jobs] eqn:E; [contradiction|].
    exists j. split; [left; reflexivity|].
    apply (fetched_company_none W).
    apply first_seen_incl. rewrite <- unique_jobs_first_seen.
    rewrite <- (collect_jobs_unique W out), E. left. reflexivity. }
  intros jobs kept H. eapply filter_loop_returns, H.
Qed.

End FilterProperties.

(** ** The formatter *)












(** ** The notifier *)

(** With both credentials set and a body that [MIMEText] takes, the
    first thing [send_email] asks of the relay is a connection. *)
Lemma send_email_connects env L R subject body :
  truthy (GMAIL_USER env) = true ->
  truthy (GMAIL_APP_PASSWORD env) = true ->
  MIMEText L body (cps "html") = None ->
  exists calls,
    fst (send_email env L R subject body [])
    = SMTP (cps "smtp.gmail.com") 587 :: calls.
Proof.
  intros U P T. unfold send_email. rewrite U, P, T. simpl.
  unfold smtp_bind, smtp_do at 1. simpl.
  destruct (R (SMTP _ 587)); [eexists; reflexivity|].
  unfold smtp_with, smtp_bind, smtp_lift, smtp_do. simpl.
  destruct (R starttls); simpl;
    [destruct (R quit); eexists; reflexivity|].
  destruct (R (login _ _)); simpl;
    [destruct (R quit); eexists; reflexivity|].
  destruct (as_string L _) as [text|e]; simpl;
    [|destruct (R quit); eexists; reflexivity].
  destruct (R (sendmail _ _ _)); simpl;
    destruct (R quit); eexists; reflexivity.
Qed.

Lemma main_calls_from_send_email U env W L R today :
  smtp_calls (main U env W L R today) = []
  \/ exists body,
       smtp_calls (main U env W L R today)
       = fst (send_email env L R (email_subject today) body [])
       /\ returned (main U env W L R today)
          = snd (send_email env L R (email_subject today) body []).
Proof.
  unfold main. destruct (collect_jobs W []) as [jobs out].
  destruct (bind (filter_jobs U jobs) _) as [body|e]; [|left; reflexivity].
  right. exists body.
  destruct (send_email env L R (email_subject today) body []) as [calls r].
  split; reflexivity.
Qed.

(** C9. When GMAIL_USER or GMAIL_APP_PASSWORD is unset, [send_email]
    raises "Gmail credentials not set" without a call to the mail relay,
    whatever the subject and the body; and the run ends with an
    exception, [main] having made no call to the relay. *)
Theorem send_email_needs_credentials
    (env : environ) (L : email_package) (R : relay) (subject body : pystr)
    (calls : list smtp_call) :
  GMAIL_USER env = VNone \/ GMAIL_APP_PASSWORD env = VNone ->
  send_email env L R subject body calls
  = (calls, Raise (RuntimeError (cps "Gmail credentials not set")))
  /\ (forall U W today,
        smtp_calls (main U env W L R today) = []
        /\ exists e, returned (main U env W L R today) = Raise e).
Proof.
  intros H.
  assert (S : forall subject body calls,
             send_email env L R subject body calls
             = (calls, Raise (RuntimeError (cps "Gmail credentials not set")))).
  { intros s b c. unfold send_email.
    destruct H as [-> | ->]; simpl; [reflexivity|].
    rewrite orb_true_r. reflexivity. }
  split; [apply S|].
  intros U W today. unfold main.
  destruct (collect_jobs W []) as [jobs out].
  destruct (bind (filter_jobs U jobs) _) as [html_body|e]; simpl.
  - rewrite S. simpl. split; [reflexivity|eexists; reflexivity].
  - split; [reflexivity|eexists; reflexivity].
Qed.

(** ** The properties at the sample data *)

Example parse_experience_text_en_dash :
  parse_experience_text ascii_only (cps "Exp: 3 " ++ [en_dash] ++ cps " 5 Years")
  = (Some 3%Z, Some 5%Z).
Proof. vm_compute. reflexivity. Qed.

Example parse_experience_text_leftmost :
  parse_experience_text ascii_only (cps "123-45 years, then 6-7 years")
  = (Some 23%Z, Some 45%Z).
Proof. vm_compute. reflexivity. Qed.

Example location_matches_sample :
  location_matches ascii_only (VStr (cps "Remote, India")) = true
  /\ location_matches ascii_only (VStr []) = true
  /\ location_matches ascii_only (VStr (cps "San Francisco, CA")) = false.
Proof. repeat split; vm_compute; reflexivity. Qed.

Example text_contains_keywords_sample :
  text_contains_keywords ascii_only (cps "Senior DevOps Engineer") = true
  /\ text_contains_keywords ascii_only (cps "Graphic Designer") = false.
Proof. repeat split; vm_compute; reflexivity. Qed.

Example filter_jobs_sample :
  filter_jobs ascii_only sample_jobs = Ok [job_devops; job_bare].
Proof. vm_compute. reflexivity. Qed.

Example build_email_html_sample :
  build_email_html [job_bare]
  = Ok (table_open
        ++ cps "<tr><td>1</td><td><a href='https://jobs.example/5'>"
        ++ cps "Platform Engineer &lt;Kubernetes&gt;</a></td>"
        ++ cps "<td>Indeed</td><td>" ++ [em_dash] ++ cps "</td></tr>"
        ++ cps "</table>").
Proof. vm_compute. reflexivity. Qed.

Example collect_jobs_sample :
  fst (collect_jobs sample_internet [])
  = [indeed_record sample_tag;
     wellfound_record (cps "https://wellfound.com/jobs/42")
                      (cps "Cloud Engineer")].
Proof. vm_compute. reflexivity. Qed.

Lemma filter_jobs_keeps_passing_witness :
  forallb string_valued sample_jobs = true
  /\ filter_jobs ascii_only sample_jobs
     = Ok (filter (passes ascii_only) sample_jobs).
Proof.
  split; [reflexivity|].
  exact (proj1 (filter_jobs_keeps_passing ascii_only sample_jobs eq_refl)).
Defined.

Lemma filter_jobs_company_none_witness :
  exists msg,
    filter_jobs ascii_only [indeed_record sample_tag] = Raise (TypeError msg).
Proof.
  apply (proj1 (proj2 (proj2 (filter_jobs_company_none ascii_only)))).
  exists (indeed_record sample_tag).
  split; [left; reflexivity|reflexivity].
Defined.


Lemma collect_jobs_first_seen_wins_witness :
  unique_jobs [job_first; job_again] = [job_first].
Proof.
  apply (proj1 (proj2 (proj2 (proj2
           (collect_jobs_first_seen_wins sample_internet []))))
           job_first job_again 104%N (cps "ttps://jobs.example/7"));
    reflexivity.
Defined.

Lemma collect_jobs_key_not_empty_witness :
  truthy (dedup_key (indeed_record sample_tag)) = true
  /\ dedup_key (indeed_record sample_tag)
     = VStr (cps "https://in.indeed.com/jobs/42").
Proof.
  assert (H : In (indeed_record sample_tag)
                 (fst (collect_jobs sample_internet []))).
  { vm_compute. left. reflexivity. }
  destruct (collect_jobs_key_not_empty sample_internet [] _ H)
    as (T & _ & L & _).
  split; [exact T|]. apply L. reflexivity.
Defined.

Lemma fetch_failure_is_not_fatal_witness :
  scrape_indeed internet_down (cps "DevOps Engineer") []
  = ([], [cps "Indeed error: Connection refused"]).
Proof.
  apply (proj1 fetch_failure_is_not_fatal
               internet_down (cps "DevOps Engineer") []
               (LibraryError (cps "Connection refused"))).
  left. reflexivity.
Defined.


Lemma send_email_needs_credentials_witness :
  send_email no_environment email_plain (fun _ => None)
             (cps "subject") (cps "body") []
  = ([], Raise (RuntimeError (cps "Gmail credentials not set"))).
Proof.
  apply (send_email_needs_credentials
           no_environment email_plain (fun _ => None)
           (cps "subject") (cps "body") []).
  left. reflexivity.
Defined.

(** * Further properties *)

(** ** Normalised text *)

Lemma normalize_text_join text :
  normalize_text text = join (cps " ") (split text).
Proof. destruct text; reflexivity. Qed.

Lemma split_from_words s :
  forall word,
    forallb nonspace word = true -> Forall is_word (split_from s word).
Proof.
  induction s as [|c s IH]; intros word Hw; simpl.
  - destruct word; constructor; [|constructor]. split; [discriminate|exact Hw].
  - destruct (is_space c) eqn:Sp.
    + destruct word as [|x word]; [apply IH; reflexivity|].
      constructor; [split; [discriminate|exact Hw]|apply IH; reflexivity].
    + apply IH. rewrite forallb_app, Hw. simpl. unfold nonspace. rewrite Sp.
      reflexivity.
Qed.

Lemma split_words s : Forall is_word (split s).
Proof. apply split_from_words. reflexivity. Qed.

Lemma split_from_word w :
  forallb nonspace w = true ->
  forall rest word, split_from (w ++ rest) word = split_from rest (word ++ w).
Proof.
  induction w as [|c w IH]; intros Hw rest word; simpl.
  - rewrite app_nil_r. reflexivity.
  - simpl in Hw. apply andb_true_iff in Hw. destruct Hw as [Hc Hw].
    unfold nonspace in Hc. apply negb_true_iff in Hc. rewrite Hc.
    rewrite IH by exact Hw. rewrite <- app_assoc. reflexivity.
Qed.

Lemma split_from_space word rest :
  word <> [] -> split_from (32%N :: rest) word = word :: split_from rest [].
Proof. destruct word; [contradiction|reflexivity]. Qed.

(** Splitting what [join] made of words gives the words back. *)
Lemma split_join words :
  Forall is_word words -> split (join (cps " ") words) = words.
Proof.
  unfold split. induction 1 as [|w words [Hne Hw] Hws IH]; [reflexivity|].
  destruct words as [|w' words].
  - simpl. rewrite <- (app_nil_r w) at 1. rewrite split_from_word by exact Hw.
    simpl. destruct w; [contradiction|reflexivity].
  - change (join (cps " ") (w :: w' :: words))
      with (w ++ 32%N :: join (cps " ") (w' :: words)).
    rewrite split_from_word by exact Hw. cbn [app].
    rewrite split_from_space by exact Hne. rewrite IH. reflexivity.
Qed.

Lemma tidy_from_word w :
  is_word w ->
  forall b rest, tidy_from b (w ++ rest) = tidy_from false rest.
Proof.
  intros [Hne Hw]. induction w as [|c w IH]; [contradiction|].
  intros b rest. simpl in *. apply andb_true_iff in Hw. destruct Hw as [Hc Hw].
  unfold nonspace in Hc. apply negb_true_iff in Hc. rewrite Hc.
  destruct w as [|c' w]; [reflexivity|].
  apply IH; [discriminate|exact Hw].
Qed.

Lemma tidy_join words :
  Forall is_word words -> words <> [] ->
  tidy_from true (join (cps " ") words) = true.
Proof.
  induction 1 as [|w words Hw Hws IH]; [contradiction|]. intros _.
  destruct words as [|w' words].
  - simpl. rewrite <- (app_nil_r w). rewrite tidy_from_word by exact Hw.
    reflexivity.
  - change (join (cps " ") (w :: w' :: words))
      with (w ++ 32%N :: join (cps " ") (w' :: words)).
    rewrite tidy_from_word by exact Hw.
    simpl. apply IH. discriminate.
Qed.

Lemma join_nil_words words :
  Forall is_word words -> join (cps " ") words = [] -> words = [].
Proof.
  intros H E. destruct H as [|w words [Hne _] _]; [reflexivity|].
  destruct w; [contradiction|]. destruct words; discriminate.
Qed.

(** X1. Whatever the text, [normalize_text] returns a tidy text: its only
    white space is single spaces between words, none leading, none
    trailing, none doubled. *)
Theorem normalize_text_tidy (text : pystr) :
  tidy (normalize_text text) = true.
Proof.
  rewrite normalize_text_join. unfold tidy.
  destruct (join (cps " ") (split text)) as [|c s] eqn:E; [reflexivity|].
  rewrite <- E. apply tidy_join; [apply split_words|].
  intros H. rewrite H in E. discriminate.
Qed.

(** X2. [normalize_text] is idempotent. *)
Theorem normalize_text_idempotent (text : pystr) :
  normalize_text (normalize_text text) = normalize_text text.
Proof.
  rewrite !normalize_text_join.
  rewrite split_join by apply split_words. reflexivity.
Qed.

Lemma concat_split_from s :
  forall word, concat (split_from s word) = word ++ filter nonspace s.
Proof.
  induction s as [|c s IH]; intros word; simpl.
  - destruct word; simpl; rewrite ?app_nil_r; reflexivity.
  - unfold nonspace at 1. destruct (is_space c); simpl.
    + destruct word; simpl; rewrite IH; reflexivity.
    + rewrite IH, <- app_assoc. reflexivity.
Qed.

Lemma filter_nonspace_word w :
  forallb nonspace w = true -> filter nonspace w = w.
Proof.
  induction w as [|c w IH]; simpl; [reflexivity|].
  intros H. apply andb_true_iff in H. destruct H as [Hc Hw].
  rewrite Hc, IH by exact Hw. reflexivity.
Qed.

Lemma filter_nonspace_join words :
  Forall is_word words ->
  filter nonspace (join (cps " ") words) = concat words.
Proof.
  induction 1 as [|w words [_ Hw] Hws IH]; [reflexivity|].
  destruct words as [|w' words].
  - simpl. rewrite app_nil_r. apply filter_nonspace_word, Hw.
  - change (join (cps " ") (w :: w' :: words))
      with (w ++ 32%N :: join (cps " ") (w' :: words)).
    rewrite filter_app, filter_nonspace_word by exact Hw.
    change (filter nonspace (32%N :: ?x)) with (filter nonspace x).
    rewrite IH. reflexivity.
Qed.

(** X3. [normalize_text] only touches white space: the other characters
    of the text come out unchanged and in the same order. *)
Theorem normalize_text_keeps_characters (text : pystr) :
  filter nonspace (normalize_text text) = filter nonspace text.
Proof.
  rewrite normalize_text_join.
  rewrite filter_nonspace_join by apply split_words.
  unfold split. rewrite concat_split_from. reflexivity.
Qed.

(** ** Substrings *)

Lemma startswith_iff prefix s :
  startswith prefix s = true <-> exists rest, s = prefix ++ rest.
Proof.
  revert s. induction prefix as [|p prefix IH]; intros s; simpl.
  - split; [intros _; exists s; reflexivity|reflexivity].
  - destruct s as [|c s].
    + split; [discriminate|intros [rest E]; discriminate].
    + rewrite andb_true_iff, cp_eqb_eq, IH. split.
      * intros [-> [rest ->]]. exists rest. reflexivity.
      * intros [rest E]. injection E as -> ->. split; [reflexivity|eauto].
Qed.

(** [needle in hay] holds exactly when [hay] has [needle] as a contiguous
    part. *)
Lemma str_in_iff needle hay :
  str_in needle hay = true <-> exists pre post, hay = pre ++ needle ++ post.
Proof.
  induction hay as [|c hay IH]; simpl; rewrite orb_true_iff, startswith_iff.
  - split.
    + intros [[rest E]|H]; [|discriminate]. exists [], rest. exact E.
    + intros (pre & post & E). left.
      destruct pre; [exists post; exact E|discriminate].
  - rewrite IH. split.
    + intros [[rest E]|(pre & post & ->)].
      * exists [], rest. exact E.
      * exists (c :: pre), post. reflexivity.
    + intros (pre & post & E). destruct pre as [|x pre].
      * left. exists post. exact E.
      * right. injection E as -> ->. eauto.
Qed.

Lemma str_in_trans a b t :
  str_in a b = true -> str_in b t = true -> str_in a t = true.
Proof.
  rewrite !str_in_iff. intros (p1 & q1 & ->) (p2 & q2 & ->).
  exists (p2 ++ p1), (q1 ++ q2). list_norm. reflexivity.
Qed.

(** ** The location and keyword tests *)

Section PredicateProperties.

Variable U : ucd.

(** X4. Two of the four terms of [location_matches] are idle: a location
    passes exactly when it is empty or [None], or when its lower-case
    form contains "remote" or "india". *)
Theorem location_matches_two_terms (location_text : value) :
  location_matches U location_text
  = negb (truthy location_text)
    || str_in (cps "remote") (lower U (text_of location_text))
    || str_in (cps "india") (lower U (text_of location_text)).
Proof.
  unfold location_matches.
  destruct location_text as [|[|c s]]; [reflexivity|reflexivity|].
  simpl truthy. simpl negb. cbv iota. simpl text_of.
  set (t := lower U (c :: s)). unfold any. simpl existsb.
  pose proof (@str_in_trans (cps "india") (cps "pan india") t eq_refl) as P.
  pose proof (@str_in_trans (cps "india") (cps "india remote") t eq_refl) as Q.
  destruct (str_in (cps "remote") t); [reflexivity|].
  destruct (str_in (cps "india") t); [reflexivity|].
  destruct (str_in (cps "pan india") t); [discriminate (P eq_refl)|].
  destruct (str_in (cps "india remote") t); [discriminate (Q eq_refl)|].
  reflexivity.
Qed.

Lemma lowered_keywords :
  map (lower U) KEYWORDS
  = [ cps "devops engineer"; cps "cloud engineer";
      cps "site reliability engineer"; cps "platform engineer";
      cps "infrastructure engineer"; cps "aws engineer";
      cps "azure devops engineer"; cps "kubernetes engineer" ].
Proof. vm_compute. reflexivity. Qed.

(** X5. [text_contains_keywords] is decided by eight terms: a text passes
    exactly when its lower-case form contains "devops", "cloud", "sre",
    "site reliability", "platform engineer", "infrastructure engineer",
    "aws engineer" or "kubernetes engineer"; the other four keywords of
    the configuration contain one of these. *)
Theorem text_contains_keywords_terms (text : pystr) :
  text_contains_keywords U text
  = any (fun term => str_in term (lower U text)) relevant_terms.
Proof.
  unfold text_contains_keywords. set (t := lower U text).
  assert (K : any (fun kw => str_in (lower U kw) t) KEYWORDS
              = any (fun kw => str_in kw t) (map (lower U) KEYWORDS)).
  { unfold any. induction KEYWORDS as [|k ks IH]; [reflexivity|].
    simpl. rewrite IH. reflexivity. }
  rewrite K, lowered_keywords. unfold any, relevant_terms. simpl existsb.
  pose proof (@str_in_trans (cps "devops") (cps "devops engineer") t eq_refl) as A.
  pose proof (@str_in_trans (cps "cloud") (cps "cloud engineer") t eq_refl) as B.
  pose proof (@str_in_trans (cps "site reliability")
                (cps "site reliability engineer") t eq_refl) as C.
  pose proof (@str_in_trans (cps "devops") (cps "azure devops engineer") t
                eq_refl) as D.
  destruct (str_in (cps "devops engineer") t);
    [rewrite (A eq_refl); reflexivity|].
  destruct (str_in (cps "cloud engineer") t);
    [rewrite (B eq_refl), ?orb_true_r; reflexivity|].
  destruct (str_in (cps "site reliability engineer") t);
    [rewrite (C eq_refl), ?orb_true_r; reflexivity|].
  destruct (str_in (cps "azure devops engineer") t);
    [rewrite (D eq_refl), ?orb_true_r; simpl; rewrite ?orb_true_r; reflexivity|].
  simpl.
  destruct (str_in (cps "platform engineer") t),
           (str_in (cps "infrastructure engineer") t),
           (str_in (cps "aws engineer") t),
           (str_in (cps "kubernetes engineer") t),
           (str_in (cps "devops") t), (str_in (cps "cloud") t),
           (str_in (cps "sre") t), (str_in (cps "site reliability") t);
    reflexivity.
Qed.

End PredicateProperties.

(** ** Experience *)

(** X6. On a pair of bounds that is a range (the lower bound not above
    the upper one), [experience_matches] passes exactly when some number
    of years lies both in the range and in the window from MIN_YEARS to
    MAX_YEARS; a missing bound leaves that side open. *)
Theorem experience_matches_overlap (min_y max_y : option Z) :
  ordered_range min_y max_y ->
  (experience_matches min_y max_y = true
   <-> exists y, in_range min_y max_y y /\ (MIN_YEARS <= y <= MAX_YEARS)%Z).
Proof.
  unfold ordered_range, in_range, experience_matches, MIN_YEARS, MAX_YEARS.
  destruct min_y as [lo|], max_y as [hi|]; intros O.
  - rewrite negb_true_iff, orb_false_iff, Z.ltb_ge, Z.gtb_ltb, Z.ltb_ge.
    split.
    + intros [H1 H2]. exists (Z.max lo 2). lia.
    + intros (y & [H1 H2] & H3). lia.
  - rewrite Z.leb_le. split.
    + intros H. exists (Z.max lo 2). lia.
    + intros (y & [H1 _] & H3). lia.
  - rewrite Z.geb_le. split.
    + intros H. exists 2%Z. lia.
    + intros (y & [_ H2] & H3). lia.
  - split; [intros _; exists 2%Z; lia|reflexivity].
Qed.

Section ExperienceBounds.

Variable U : ucd.

Hypothesis digits : decimal_digits U.

Lemma decimal_value_digit c d :
  decimal_value U c = Some d -> (0 <= d <= 9)%Z.
Proof.
  unfold decimal_value. destruct (is_ascii c); [|apply digits].
  destruct ((48 <=? c)%N && (c <=? 57)%N) eqn:E; [|discriminate].
  apply andb_true_iff in E. destruct E as [E1 E2].
  apply N.leb_le in E1, E2. intros H. injection H as <-. lia.
Qed.

Lemma int_of_digits_number d :
  is_number U d -> (0 <= int_of_digits U d <= 99)%Z.
Proof.
  intros [[L1 L2] D]. unfold int_of_digits.
  destruct d as [|a [|b [|c d]]]; simpl in L1, L2; try lia;
    cbn [fold_left forallb] in *; unfold is_digit in D.
  - destruct (decimal_value U a) as [x|] eqn:A; [|discriminate].
    apply decimal_value_digit in A. lia.
  - destruct (decimal_value U a) as [x|] eqn:A; [|discriminate].
    destruct (decimal_value U b) as [y|] eqn:B; [|discriminate].
    apply decimal_value_digit in A, B. lia.
Qed.

(** X7. Every bound [parse_experience_text] returns lies between 0 and
    99, as long as the digit values of the character database are
    digits. *)
Theorem parse_experience_text_bounds (text : pystr) (y : Z) :
  fst (parse_experience_text U text) = Some y
  \/ snd (parse_experience_text U text) = Some y ->
  (0 <= y <= 99)%Z.
Proof.
  unfold parse_experience_text. destruct text as [|c text].
  { simpl. intros [H|H]; discriminate. }
  set (t := lower U (c :: text)).
  pose proof (search_range U t) as R. pose proof (search_plus U t) as P.
  pose proof (search_minimum U t) as M. pose proof (search_plain U t) as Y.
  destruct (search (pat_range U) t) as [m1|].
  { destruct R as (? & d1 & ? & ? & ? & d2 & ? & ? & _ & N1 & _ & _ & _ & N2
                   & _ & E1 & E2).
    simpl. rewrite E1, E2.
    intros [H|H]; injection H as <-; apply int_of_digits_number; assumption. }
  destruct (search (pat_plus U) t) as [m2|].
  { destruct P as (? & d & ? & ? & ? & _ & N & _ & _ & E).
    simpl. rewrite E.
    intros [H|H]; [|discriminate]. injection H as <-.
    apply int_of_digits_number; assumption. }
  destruct (search (pat_minimum U) t) as [m3|].
  { destruct M as (? & ? & ? & d & ? & ? & _ & _ & _ & _ & _ & N & _ & E).
    simpl. rewrite E.
    intros [H|H]; [|discriminate]. injection H as <-.
    apply int_of_digits_number; assumption. }
  destruct (search (pat_plain U) t) as [m4|].
  { destruct Y as (? & d & ? & ? & _ & N & _ & E).
    simpl. rewrite E.
    intros [H|H]; injection H as <-; apply int_of_digits_number; assumption. }
  simpl. intros [H|H]; discriminate.
Qed.

End ExperienceBounds.

Section ExperienceShapes.

Variable U : ucd.

Lemma has_range_plain t : has_range U t -> has_plain U t.
Proof.
  intros (n & m & pre & d1 & b1 & dash & b2 & d2 & b3 & rest & -> & _ & _ & _
          & _ & N2 & B3 & _ & _).
  exists (int_of_digits U d2), (pre ++ d1 ++ b1 ++ [dash] ++ b2), d2, b3, rest.
  repeat split; try apply N2; try exact B3. list_norm. reflexivity.
Qed.

Lemma has_minimum_plain t : has_minimum U t -> has_plain U t.
Proof.
  intros (n & pre & b1 & b2 & d & b3 & rest & -> & _ & _ & _ & _ & N & B3 & _).
  exists (int_of_digits U d), (pre ++ cps "minimum" ++ b1 ++ cps "of" ++ b2),
    d, b3, rest.
  repeat split; try apply N; try exact B3. list_norm. reflexivity.
Qed.

(** X8. [parse_experience_text] finds no experience exactly when the text
    is empty or its lower-case form holds neither "N years" nor
    "N+ years": the two other rules only refine texts that hold
    "N years". *)
Theorem parse_experience_text_none (text : pystr) :
  parse_experience_text U text = (None, None)
  <-> text = []
      \/ (~ has_plus U (lower U text) /\ ~ has_plain U (lower U text)).
Proof.
  unfold parse_experience_text. destruct text as [|c text].
  { split; auto. }
  set (t := lower U (c :: text)).
  pose proof (search_range U t) as R. pose proof (search_plus U t) as P.
  pose proof (search_minimum U t) as M. pose proof (search_plain U t) as Y.
  destruct (search (pat_range U) t) as [m1|].
  { split; [discriminate|]. intros [H|[_ H]]; [discriminate|].
    exfalso. apply H, has_range_plain. do 2 eexists. exact R. }
  destruct (search (pat_plus U) t) as [m2|].
  { split; [discriminate|]. intros [H|[H _]]; [discriminate|].
    exfalso. apply H. eexists. exact P. }
  destruct (search (pat_minimum U) t) as [m3|].
  { split; [discriminate|]. intros [H|[_ H]]; [discriminate|].
    exfalso. apply H, has_minimum_plain. eexists. exact M. }
  destruct (search (pat_plain U) t) as [m4|].
  { split; [discriminate|]. intros [H|[_ H]]; [discriminate|].
    exfalso. apply H. eexists. exact Y. }
  split; auto.
Qed.

End ExperienceShapes.

(** ** More on the scrapers *)

Lemma scrape_indeed_capped W query_kw out :
  exists anchors,
    length anchors <= 25
    /\ fst (scrape_indeed W query_kw out) = map indeed_record anchors.
Proof.
  unfold scrape_indeed, indeed_try.
  destruct (requests_get W _) as [html|e];
    [|exists []; split; [simpl; lia|reflexivity]].
  destruct (soup_select W html _) as [anchors|e];
    [|exists []; split; [simpl; lia|reflexivity]].
  exists (firstn 25 anchors). split; [apply firstn_le_length|].
  cbn [fst]. rewrite fold_left_append. reflexivity.
Qed.

Lemma indeed_record_link a :
  exists link,
    lookup (indeed_record a) "link" = Some (VStr link)
    /\ startswith (cps "/") link = false.
Proof.
  unfold indeed_record.
  destruct (startswith (cps "/")
              match attr_href a with Some h => h | None => [] end) eqn:E.
  - eexists. split; reflexivity.
  - eexists. split; [reflexivity|exact E].
Qed.

(** X9. A call of [scrape_indeed] returns at most 25 records, and the
    link of none of them starts with a slash: a relative link has been
    put under https://in.indeed.com. *)
Theorem scrape_indeed_capped_absolute
    (W : internet) (query_kw : pystr) (out : stdout) :
  length (fst (scrape_indeed W query_kw out)) <= 25
  /\ forall j, In j (fst (scrape_indeed W query_kw out)) ->
       exists link,
         lookup j "link" = Some (VStr link)
         /\ startswith (cps "/") link = false.
Proof.
  destruct (scrape_indeed_capped W query_kw out) as (anchors & L & E).
  rewrite E. split; [rewrite length_map; exact L|].
  intros j H. apply in_map_iff in H. destruct H as (a & <- & _).
  apply indeed_record_link.
Qed.

Lemma NoDup_map_VStr l : NoDup l -> NoDup (map VStr l).
Proof.
  induction 1 as [|x l Hx N IH]; simpl; constructor; [|exact IH].
  rewrite in_map_iff. intros (y & E & Hy). injection E as ->. contradiction.
Qed.

Lemma wellfound_step_invariant state a :
  wellfound_invariant state -> wellfound_invariant (wellfound_step state a).
Proof.
  destruct state as [seen results]. intros (L & N & E).
  unfold wellfound_step.
  destruct (attr_href a) as [[|c href]|]; try (repeat split; assumption).
  set (link := if startswith (cps "/") (c :: href)
               then cps "https://wellfound.com" ++ c :: href else c :: href).
  assert (Hne : link <> []).
  { unfold link. destruct (startswith _ _); discriminate. }
  destruct (existsb (str_eqb link) seen) eqn:X; [repeat split; assumption|].
  unfold wellfound_invariant. simpl in *.
  split; [|split].
  - rewrite map_app, L, map_app. reflexivity.
  - constructor; [|exact N]. intros H.
    assert (Y : existsb (str_eqb link) seen = true).
    { apply existsb_exists. exists link. split; [exact H|].
      apply str_eqb_eq. reflexivity. }
    rewrite Y in X. discriminate.
  - intros [H|H]; [apply Hne; exact H|apply E; exact H].
Qed.

Lemma wellfound_loop_invariant anchors :
  forall state,
    wellfound_invariant state ->
    wellfound_invariant (fold_left wellfound_step anchors state).
Proof.
  induction anchors as [|a anchors IH]; intros state H; [exact H|].
  simpl. apply IH, wellfound_step_invariant, H.
Qed.

(** X10. The records of one call of [scrape_wellfound] have links that
    are not empty and differ from one another. *)
Theorem scrape_wellfound_links_distinct
    (W : internet) (query_kw : pystr) (out : stdout) :
  NoDup (map link_of (fst (scrape_wellfound W query_kw out)))
  /\ forall j, In j (fst (scrape_wellfound W query_kw out)) ->
       truthy (link_of j) = true.
Proof.
  unfold scrape_wellfound, wellfound_try.
  destruct (requests_get W _) as [html|e];
    [|split; [constructor|intros j []]].
  destruct (soup_select W html _) as [anchors|e];
    [|split; [constructor|intros j []]].
  cbn [fst].
  assert (I : wellfound_invariant (fold_left wellfound_step anchors ([], []))).
  { apply wellfound_loop_invariant. repeat split; [constructor|intros []]. }
  destruct (fold_left wellfound_step anchors ([], [])) as [seen results].
  destruct I as (L & N & E). simpl in *. split.
  - rewrite L. apply NoDup_map_VStr, NoDup_rev, N.
  - intros j H. apply (in_map link_of) in H. rewrite L in H.
    apply in_map_iff in H. destruct H as (link & <- & Hin).
    apply in_rev in Hin. destruct link; [contradiction|reflexivity].
Qed.




(** X12. A call of a scraper prints at most one line, and only when it
    returns no record; so [collect_jobs] prints at most 16 lines. *)
Theorem scrapers_print_on_failure_only (W : internet) :
  (forall query_kw out,
     snd (scrape_indeed W query_kw out) = out
     \/ fst (scrape_indeed W query_kw out) = []
        /\ exists line, snd (scrape_indeed W query_kw out) = out ++ [line])
  /\ (forall query_kw out,
     snd (scrape_wellfound W query_kw out) = out
     \/ fst (scrape_wellfound W query_kw out) = []
        /\ exists line, snd (scrape_wellfound W query_kw out) = out ++ [line])
  /\ length (snd (collect_jobs W [])) <= 16.
Proof.
  assert (I : forall query_kw out,
     snd (scrape_indeed W query_kw out) = out
     \/ fst (scrape_indeed W query_kw out) = []
        /\ exists line, snd (scrape_indeed W query_kw out) = out ++ [line]).
  { intros kw out. unfold scrape_indeed, indeed_try, print_error.
    destruct (requests_get W _) as [html|e]; [|right; split; [reflexivity|eexists; reflexivity]].
    destruct (soup_select W html _) as [anchors|e]; [|right; split; [reflexivity|eexists; reflexivity]].
    left. reflexivity. }
  assert (F : forall query_kw out,
     snd (scrape_wellfound W query_kw out) = out
     \/ fst (scrape_wellfound W query_kw out) = []
        /\ exists line, snd (scrape_wellfound W query_kw out) = out ++ [line]).
  { intros kw out. unfold scrape_wellfound, wellfound_try, print_error.
    destruct (requests_get W _) as [html|e]; [|right; split; [reflexivity|eexists; reflexivity]].
    destruct (soup_select W html _) as [anchors|e]; [|right; split; [reflexivity|eexists; reflexivity]].
    left. reflexivity. }
  split; [exact I|]. split; [exact F|].
  rewrite collect_jobs_printed. cbn [app].
  assert (G : forall kws,
            length (flat_map (fun kw => snd (scrape_indeed W kw [])
                                        ++ snd (scrape_wellfound W kw [])) kws)
            <= 2 * length kws).
  { induction kws as [|kw kws IH]; [simpl; lia|].
    cbn [flat_map]. rewrite !length_app. cbn [length].
    destruct (I kw []) as [-> | [_ [l1 ->]]];
      destruct (F kw []) as [-> | [_ [l2 ->]]]; simpl; lia. }
  apply (G KEYWORDS).
Qed.

(** ** More on de-duplication *)

Lemma first_seen_fixed jobs :
  (forall j, In j jobs -> truthy (dedup_key j) = true) ->
  NoDup (map dedup_key jobs) ->
  first_seen jobs = jobs.
Proof.
  induction jobs as [|j jobs IH] using rev_ind; [reflexivity|].
  intros T N. rewrite first_seen_snoc.
  rewrite map_app in N. simpl in N.
  assert (Hj : ~ In (dedup_key j) (map dedup_key jobs)).
  { apply NoDup_remove_2 in N. rewrite app_nil_r in N. exact N. }
  apply NoDup_remove_1 in N. rewrite app_nil_r in N.
  rewrite IH; [|intros x Hx; apply T, in_or_app; left; exact Hx|exact N].
  rewrite (T j) by (apply in_or_app; right; left; reflexivity).
  destruct (existsb (same_key j) jobs) eqn:X; [|reflexivity].
  exfalso. apply Hj. apply existsb_exists in X. destruct X as (j' & Hin & E).
  unfold same_key in E. apply value_eqb_eq in E. rewrite E.
  apply in_map, Hin.
Qed.

(** X13. De-duplicating twice is de-duplicating once. *)
Theorem unique_jobs_idempotent (jobs : list job) :
  unique_jobs (unique_jobs jobs) = unique_jobs jobs.
Proof.
  rewrite !unique_jobs_first_seen. apply first_seen_fixed.
  - intros j. apply first_seen_truthy.
  - apply first_seen_keys_distinct.
Qed.

Lemma first_seen_covers jobs :
  forall j, In j jobs -> truthy (dedup_key j) = true ->
    exists j', In j' (first_seen jobs) /\ dedup_key j' = dedup_key j.
Proof.
  induction jobs as [|x jobs IH] using rev_ind; intros j Hin T; [destruct Hin|].
  rewrite first_seen_snoc. apply in_app_or in Hin.
  destruct Hin as [Hin|[<-|[]]].
  - destruct (IH j Hin T) as (j' & H' & E). exists j'.
    split; [apply in_or_app; left; exact H'|exact E].
  - rewrite T. destruct (existsb (same_key x) jobs) eqn:X; simpl.
    + apply existsb_exists in X. destruct X as (j0 & H0 & E0).
      unfold same_key in E0. apply value_eqb_eq in E0.
      destruct (IH j0 H0) as (j' & H' & E); [rewrite <- E0; exact T|].
      exists j'. split; [apply in_or_app; left; exact H'|congruence].
    + exists x. split; [apply in_or_app; right; left; reflexivity|reflexivity].
Qed.

Lemma first_seen_length jobs : length (first_seen jobs) <= length jobs.
Proof.
  induction jobs as [|x jobs IH] using rev_ind; [simpl; lia|].
  rewrite first_seen_snoc, !length_app.
  destruct (truthy (dedup_key x) && negb (existsb (same_key x) jobs));
    simpl; lia.
Qed.

(** X14. De-duplication loses no key: every non-empty key of the list
    is the key of a record that stays; and it returns records of the
    list, no more of them than the list has. *)
Theorem unique_jobs_keeps_every_key (jobs : list job) :
  (forall j, In j jobs -> truthy (dedup_key j) = true ->
     exists j', In j' (unique_jobs jobs) /\ dedup_key j' = dedup_key j)
  /\ (forall j, In j (unique_jobs jobs) -> In j jobs)
  /\ length (unique_jobs jobs) <= length jobs.
Proof.
  rewrite unique_jobs_first_seen. split; [apply first_seen_covers|].
  split; [intros j; apply first_seen_incl|apply first_seen_length].
Qed.

(** ** More on the filter *)

Section FilterMore.

Variable U : ucd.

Lemma forallb_filter_sub {A} (p q : A -> bool) l :
  forallb p l = true -> forallb p (filter q l) = true.
Proof.
  induction l as [|x l IH]; simpl; [reflexivity|].
  intros H. apply andb_true_iff in H. destruct H as [Hx Hl].
  destruct (q x); simpl; [rewrite Hx|]; apply IH, Hl.
Qed.

Lemma filter_filter {A} (p : A -> bool) l :
  filter p (filter p l) = filter p l.
Proof.
  induction l as [|x l IH]; simpl; [reflexivity|].
  destruct (p x) eqn:E; simpl; [rewrite E, IH|]; auto.
Qed.

(** X15. What [filter_jobs] returns it returns again when run on its own
    result, and it returns records of its input. *)
Theorem filter_jobs_idempotent (jobs kept : list job) :
  filter_jobs U jobs = Ok kept ->
  filter_jobs U kept = Ok kept
  /\ (forall j, In j kept -> In j jobs)
  /\ length kept <= length jobs.
Proof.
  intros H. pose proof (filter_loop_returns U jobs [] kept H) as S.
  unfold filter_jobs in *.
  rewrite (filter_loop_string_valued U jobs [] S) in H.
  injection H as <-. cbn [app].
  rewrite filter_loop_string_valued by (apply forallb_filter_sub, S).
  cbn [app]. rewrite filter_filter. split; [reflexivity|]. split.
  - intros j Hj. apply filter_In in Hj. tauto.
  - apply filter_length_le.
Qed.

(** The first record the scrapers found stops [filter_jobs]. *)
Lemma filter_jobs_fetched_record j jobs :
  (exists title, lookup j "title" = Some (VStr title)) ->
  lookup j "company" = Some VNone ->
  filter_jobs U (j :: jobs)
  = Raise (TypeError
             (cps "sequence item 1: expected str instance, NoneType found")).
Proof.
  intros [title T] C. unfold filter_jobs. simpl.
  unfold combined_text, join_values, dict_get, empty_str. rewrite T, C.
  reflexivity.
Qed.

End FilterMore.

(** ** More on the formatter *)

Lemma email_row_cases i j :
  if can_render j
  then exists row, email_row i j = Ok row
  else exists e, email_row i j = Raise e /\ row_error e.
Proof.
  unfold can_render, has_str, email_row, dict_item, dict_get, py_or, row_error.
  destruct (lookup j "link") as [l|]; simpl; [|eauto 6].
  destruct (lookup j "title") as [[|t]|]; simpl; [eauto 8| |eauto 6].
  destruct (lookup j "company") as [[|[|c cs]]|]; simpl;
    try (destruct (lookup j "source") as [[|s]|]; simpl; [eauto 8| |eauto 8]);
    destruct (lookup j "location") as [[|[|x xs]]|]; simpl; eauto.
Qed.

Lemma email_rows_cases jobs :
  forall i rows,
    if forallb can_render jobs
    then exists out, email_rows i jobs rows = Ok out
    else exists e, email_rows i jobs rows = Raise e /\ row_error e.
Proof.
  induction jobs as [|j jobs IH]; intros i rows; simpl; [eauto|].
  pose proof (email_row_cases i j) as R.
  destruct (can_render j); simpl.
  - destruct R as [row ->]. simpl. apply IH.
  - destruct R as (e & -> & K). simpl. eauto.
Qed.

(** X16. [build_email_html] returns exactly when every record has a link
    (of any value), a title that is a string, and a company to show or
    else a source that is a string; otherwise it raises a [KeyError] for
    'link', 'title' or 'source', or the [AttributeError] of
    [html.escape] on [None]; a missing or empty location is no error. *)
Theorem build_email_html_returns (jobs : list job) :
  ((exists html, build_email_html jobs = Ok html)
   <-> forallb can_render jobs = true)
  /\ (forall e, build_email_html jobs = Raise e -> row_error e).
Proof.
  unfold build_email_html. destruct jobs as [|j jobs].
  { split; [split; eauto|discriminate]. }
  pose proof (email_rows_cases (j :: jobs) 1 []) as C.
  destruct (forallb can_render (j :: jobs)).
  - destruct C as [out ->]. simpl.
    split; [split; eauto|discriminate].
  - destruct C as (e & -> & K). simpl. split.
    + split; [intros [html H]; discriminate|discriminate].
    + intros e' H. injection H as <-. exact K.
Qed.

(** ** More on the notifier *)

(** X17. [send_email] returns normally exactly when both credentials are
    set and not empty, [MIMEText] takes the body, the relay accepts the
    connection, STARTTLS and the login, the message serialises, and the
    relay accepts the message text and the closing; the calls made are
    then these five, in this order. *)
Theorem send_email_succeeds
    (env : environ) (L : email_package) (R : relay) (subject body : pystr) :
  (snd (send_email env L R subject body []) = Ok tt
   <-> truthy (GMAIL_USER env) = true
       /\ truthy (GMAIL_APP_PASSWORD env) = true
       /\ MIMEText L body (cps "html") = None
       /\ R connect_call = None /\ R starttls = None
       /\ R (login_call env) = None
       /\ (exists text,
             as_string L (email_message env subject body) = Ok text
             /\ R (sendmail_call env text) = None)
       /\ R quit = None)
  /\ (forall text,
        as_string L (email_message env subject body) = Ok text ->
        snd (send_email env L R subject body []) = Ok tt ->
        fst (send_email env L R subject body [])
        = [connect_call; starttls; login_call env;
           sendmail_call env text; quit]).
Proof.
  unfold send_email, connect_call, login_call, sendmail_call, email_message.
  destruct (truthy (GMAIL_USER env)); simpl;
    [|split; [split; [discriminate|intros [H _]; discriminate]
             |discriminate]].
  destruct (truthy (GMAIL_APP_PASSWORD env)); simpl;
    [|split; [split; [discriminate|intros (_ & H & _); discriminate]
             |discriminate]].
  destruct (MIMEText L body (cps "html")) eqn:E0; simpl;
    [split; [split; [discriminate|intros (_ & _ & H & _); discriminate]
            |discriminate]|].
  unfold smtp_bind, smtp_with, smtp_lift, smtp_do. simpl.
  destruct (R (SMTP _ 587)) eqn:E1; simpl;
    [split; [split; [discriminate|intros (_ & _ & _ & H & _); discriminate]
            |discriminate]|].
  destruct (R starttls) eqn:E2; simpl.
  { destruct (R quit); simpl;
      (split; [split; [discriminate
                      |intros (_ & _ & _ & _ & H & _); discriminate]
              |discriminate]). }
  destruct (R (login _ _)) eqn:E3; simpl.
  { destruct (R quit); simpl;
      (split; [split; [discriminate
                      |intros (_ & _ & _ & _ & _ & H & _); discriminate]
              |discriminate]). }
  destruct (as_string L _) as [text|e] eqn:E4; simpl.
  2:{ destruct (R quit); simpl;
      (split; [split; [discriminate
                      |intros (_ & _ & _ & _ & _ & _ & (t & H & _) & _);
                       discriminate]
              |discriminate]). }
  destruct (R (sendmail _ _ text)) eqn:E5; simpl.
  { destruct (R quit); simpl;
      (split; [split; [discriminate
                      |intros (_ & _ & _ & _ & _ & _ & (t & H & H') & _);
                       injection H as <-; rewrite E5 in H'; discriminate]
              |discriminate]). }
  destruct (R quit) eqn:E6; simpl.
  - split; [split; [discriminate
                   |intros (_ & _ & _ & _ & _ & _ & _ & H); discriminate]
           |discriminate].
  - split.
    + split; [intros _|reflexivity].
      repeat split; auto. exists text. split; [reflexivity|exact E5].
    + intros t H _. injection H as <-. reflexivity.
Qed.

(** X18. Whatever the [email] package and the relay answer, [send_email]
    hands over a message only after the connection, STARTTLS and the
    login were accepted, the message being the serialised text; and it
    closes the connection exactly when it had opened one, that is, when
    both credentials are set and not empty, [MIMEText] has taken the
    body and the relay has accepted the connection. *)
Theorem send_email_call_order
    (env : environ) (L : email_package) (R : relay) (subject body : pystr) :
  (forall from_addr to_addrs msg,
     In (sendmail from_addr to_addrs msg)
        (fst (send_email env L R subject body [])) ->
     R connect_call = None /\ R starttls = None /\ R (login_call env) = None
     /\ as_string L (email_message env subject body) = Ok msg)
  /\ (In quit (fst (send_email env L R subject body []))
      <-> truthy (GMAIL_USER env) = true
          /\ truthy (GMAIL_APP_PASSWORD env) = true
          /\ MIMEText L body (cps "html") = None
          /\ R connect_call = None).
Proof.
  unfold send_email, connect_call, login_call, email_message.
  destruct (truthy (GMAIL_USER env)); simpl;
    [|split; [intros ? ? ? []|split; [intros []|intros [H _]; discriminate]]].
  destruct (truthy (GMAIL_APP_PASSWORD env)); simpl;
    [|split; [intros ? ? ? []
             |split; [intros []|intros (_ & H & _); discriminate]]].
  destruct (MIMEText L body (cps "html")) eqn:E0; simpl;
    [split; [intros ? ? ? []
            |split; [intros []|intros (_ & _ & H & _); discriminate]]|].
  unfold smtp_bind, smtp_with, smtp_lift, smtp_do. simpl.
  destruct (R (SMTP _ 587)) eqn:E1; simpl.
  { split; [intros ? ? ? [H|[]]; discriminate|].
    split; [intros [H|[]]; discriminate
           |intros (_ & _ & _ & H); discriminate]. }
  destruct (R starttls) eqn:E2; simpl.
  { destruct (R quit); simpl;
      (split; [intros ? ? ? H; repeat destruct H as [H|H]; try discriminate;
               destruct H
              |split; [auto|intros _; auto]]). }
  destruct (R (login _ _)) eqn:E3; simpl.
  { destruct (R quit); simpl;
      (split; [intros ? ? ? H; repeat destruct H as [H|H]; try discriminate;
               destruct H
              |split; [auto|intros _; auto 6]]). }
  destruct (as_string L _) as [text|e] eqn:E4; simpl.
  2:{ destruct (R quit); simpl;
      (split; [intros ? ? ? H; repeat destruct H as [H|H]; try discriminate;
               destruct H
              |split; [auto|intros _; auto 8]]). }
  destruct (R (sendmail _ _ text)) eqn:E5; simpl;
    destruct (R quit); simpl;
    (split; [intros ? ? ? H; repeat destruct H as [H|H]; try discriminate;
             [injection H as _ _ <-; auto|destruct H]
            |split; [auto|intros _; auto 10]]).
Qed.

Lemma send_email_grows env L R subject body calls :
  truthy (GMAIL_USER env) = true ->
  truthy (GMAIL_APP_PASSWORD env) = true ->
  MIMEText L body (cps "html") = None ->
  length calls < length (fst (send_email env L R subject body calls)).
Proof.
  intros A B T. unfold send_email. rewrite A, B, T. simpl.
  unfold smtp_bind, smtp_with, smtp_lift, smtp_do. simpl.
  destruct (R (SMTP _ 587)); simpl; [rewrite length_app; simpl; lia|].
  destruct (R starttls); simpl;
    [destruct (R quit); simpl; rewrite !length_app; simpl; lia|].
  destruct (R (login _ _)); simpl;
    [destruct (R quit); simpl; rewrite !length_app; simpl; lia|].
  destruct (as_string L _); simpl;
    [|destruct (R quit); simpl; rewrite !length_app; simpl; lia].
  destruct (R (sendmail _ _ _)); simpl;
    destruct (R quit); simpl; rewrite !length_app; simpl; lia.
Qed.

(** X19. [send_email] leaves the relay alone exactly when GMAIL_USER or
    GMAIL_APP_PASSWORD is unset or empty (an empty value counts as a
    missing one) or [MIMEText] refuses the body; in every other case it
    asks for a connection. *)
Theorem send_email_credential_test
    (env : environ) (L : email_package) (R : relay) (subject body : pystr)
    (calls : list smtp_call) :
  fst (send_email env L R subject body calls) = calls
  <-> truthy (GMAIL_USER env) = false
      \/ truthy (GMAIL_APP_PASSWORD env) = false
      \/ MIMEText L body (cps "html") <> None.
Proof.
  split.
  - intros H.
    destruct (truthy (GMAIL_USER env)) eqn:A; [|auto].
    destruct (truthy (GMAIL_APP_PASSWORD env)) eqn:B; [|auto].
    destruct (MIMEText L body (cps "html")) eqn:T;
      [right; right; discriminate|].
    pose proof (send_email_grows env L R subject body calls A B T) as G.
    rewrite H in G. lia.
  - unfold send_email. intros [-> | [-> | T]]; simpl; [reflexivity| |].
    + rewrite orb_true_r. reflexivity.
    + destruct (negb _ || negb _); [reflexivity|].
      destruct (MIMEText L body (cps "html")); [reflexivity|contradiction].
Qed.

(** ** The run *)

Lemma fetched_title W j :
  In j (fetched W) -> exists title, lookup j "title" = Some (VStr title).
Proof.
  unfold fetched. rewrite in_flat_map. intros (kw & _ & H).
  apply in_app_or in H. destruct H as [H|H].
  - destruct (scrape_indeed_records W kw []) as [anchors E].
    rewrite E in H. apply in_map_iff in H. destruct H as (a & <- & _).
    eexists. reflexivity.
  - pose proof (scrape_wellfound_records
                  (fun j => exists title, lookup j "title" = Some (VStr title))
                  W kw []
                  (fun _ title => ex_intro _ title eq_refl)) as F.
    rewrite Forall_forall in F. apply F, H.
Qed.

(** X20. When the scrapers found at least one record, [main] ends with
    the [TypeError] of the join in [filter_jobs] ("sequence item 1:
    expected str instance, NoneType found") and sends nothing; when they
    found none, it sends the mail whose body says that no job was found.
    So no run sends a table of jobs. *)
Theorem main_outcome
    (U : ucd) (env : environ) (W : internet) (L : email_package) (R : relay)
    (today : pystr) :
  (fst (collect_jobs W []) <> [] ->
   smtp_calls (main U env W L R today) = []
   /\ returned (main U env W L R today)
      = Raise (TypeError
                 (cps "sequence item 1: expected str instance, NoneType found")))
  /\ (fst (collect_jobs W []) = [] ->
      smtp_calls (main U env W L R today)
      = fst (send_email env L R (email_subject today) no_jobs_body [])
      /\ returned (main U env W L R today)
         = snd (send_email env L R (email_subject today) no_jobs_body [])).
Proof.
  pose proof (collect_jobs_unique W []) as C.
  unfold main. destruct (collect_jobs W []) as [jobs out]. simpl in C. simpl fst.
  split.
  - intros Hne. destruct jobs as [|j jobs]; [contradiction|].
    assert (Hj : In j (fetched W)).
    { apply first_seen_incl. rewrite <- unique_jobs_first_seen, <- C.
      left. reflexivity. }
    rewrite (filter_jobs_fetched_record U j jobs
               (fetched_title W j Hj) (fetched_company_none W j Hj)).
    simpl. split; reflexivity.
  - intros ->. simpl. fold no_jobs_body.
    destruct (send_email env L R (email_subject today) no_jobs_body [])
      as [calls r].
    split; reflexivity.
Qed.

(** ** The further properties at the sample data *)

Lemma experience_matches_overlap_witness :
  experience_matches (Some 5%Z) (Some 9%Z) = true
  <-> exists y, in_range (Some 5%Z) (Some 9%Z) y
                /\ (MIN_YEARS <= y <= MAX_YEARS)%Z.
Proof.
  apply (experience_matches_overlap (Some 5%Z) (Some 9%Z)).
  simpl. discriminate.
Defined.

Lemma parse_experience_text_bounds_witness :
  decimal_digits ascii_only
  /\ snd (parse_experience_text ascii_only (cps "3-5 years")) = Some 5%Z
  /\ (0 <= 5 <= 99)%Z.
Proof.
  assert (D : decimal_digits ascii_only) by (intros c d H; discriminate H).
  split; [exact D|]. split; [reflexivity|].
  apply (parse_experience_text_bounds ascii_only D (cps "3-5 years") 5%Z).
  right. reflexivity.
Defined.

Lemma unique_jobs_keeps_every_key_witness :
  exists j',
    In j' (unique_jobs [job_first; job_again])
    /\ dedup_key j' = dedup_key job_again.
Proof.
  apply (proj1 (unique_jobs_keeps_every_key [job_first; job_again])).
  - right. left. reflexivity.
  - reflexivity.
Defined.

Lemma filter_jobs_idempotent_witness :
  filter_jobs ascii_only [job_devops; job_bare] = Ok [job_devops; job_bare].
Proof.
  apply (filter_jobs_idempotent ascii_only sample_jobs [job_devops; job_bare]).
  vm_compute. reflexivity.
Defined.

Lemma send_email_succeeds_witness :
  fst (send_email sample_environment email_plain relay_up
                  (cps "subject") (cps "body") [])
  = [connect_call; starttls; login_call sample_environment;
     sendmail_call sample_environment
       (cps "Subject: subject" ++ [10%N; 10%N] ++ cps "body");
     quit].
Proof.
  apply (proj2 (send_email_succeeds sample_environment email_plain relay_up
                  (cps "subject") (cps "body"))); reflexivity.
Defined.

Lemma main_outcome_witness :
  smtp_calls (main ascii_only sample_environment sample_internet email_plain relay_up
                   (cps "2026-01-01")) = []
  /\ returned (main ascii_only sample_environment sample_internet email_plain relay_up
                    (cps "2026-01-01"))
     = Raise (TypeError
                (cps "sequence item 1: expected str instance, NoneType found")).
Proof.
  apply (proj1 (main_outcome ascii_only sample_environment sample_internet
                  email_plain relay_up (cps "2026-01-01"))).
  vm_compute. discriminate.
Defined.
